(** * Chess-Analyzer: the single-pass evaluation pipeline of [analyze_game.py]

    A shallow embedding of [GameAnalyzer] and the properties of its
    evaluation normaliser, time allocator, convergence loop and worst-move
    ranking.

    Modelling conventions.
    - Python numbers (the [int] a mate score yields, the [float] of a
      centipawn score, wall-clock seconds) are exact rationals [Q]; integer
      sub-expressions are computed in [Z] and injected.  Rounding is not
      modelled; the concrete inputs used below are integers, and none of
      the comparisons made on them is within a rounding error.
    - [None] is [None]; a dictionary key that may be missing is an [option]
      field ([d.get(k)] and [k in d] read it).
    - python-chess (boards, moves, the UCI engine) is outside the
      repository: boards and moves are abstract, the engine is a record of
      the answers it gives.
    - [print] calls and the values computed only to feed them are left out. *)

From Stdlib Require Import ZArith QArith Qabs List String Bool Lia.
From Stdlib Require Import Permutation Sorted Lqa.
Import ListNotations.

Local Open Scope Q_scope.

(** ** Configuration globals (lines 17-26) *)

Definition TIME_LIMIT : Q := 11.
Definition QUICK_ANALYSIS_TIME : Q := 1 # 10.
Definition QUICK_ANALYSIS_PLY : Z := 50.
Definition TOP_N : nat := 20.
Definition GAME_OVER_EVAL_THRESHOLD : Q := 10.
Definition ANALYSIS_MODE : string := "stability".
Definition STABILITY_THRESHOLD : Q := 10.

(** ** Comparisons on numbers *)

Definition Qltb (x y : Q) : bool := negb (Qle_bool y x).
Definition Qgtb (x y : Q) : bool := Qltb y x.
Definition Qgeb (x y : Q) : bool := Qle_bool y x.

(** ** The oracle's raw score

    [_extract_evaluation] observes a relative score through [is_mate()],
    [mate()] and [cp] only.  [Mate n] is a score whose [mate()] is [n]: the
    signed distance, positive when the side to move mates, zero or negative
    when it is being mated.  [Cp c] is a centipawn score. *)

Inductive Score :=
| Cp (cp : Z)
| Mate (moves : Z).

(** The raw scores whose normalised value stays within [[-99, 99]]: mates
    of distance at most 1099, centipawn scores of magnitude at most 9900. *)
Definition within_caps (score : Score) : Prop :=
  match score with
  | Mate n => (n <= 1099)%Z
  | Cp c => (-9900 <= c <= 9900)%Z
  end.

(** ** Exceptions *)

Inductive Error :=
| RuntimeError (msg : string)
| TypeError (msg : string).

Inductive Result (A : Type) :=
| Ok (a : A)
| Raise (e : Error).
Arguments Ok {A} a.
Arguments Raise {A} e.

Definition bind {A B : Type} (r : Result A) (k : A -> Result B) : Result B :=
  match r with
  | Ok a => k a
  | Raise e => Raise e
  end.

Notation "x <- r ;; k" := (bind r (fun x => k))
  (at level 61, r at next level, right associativity).

Definition engine_not_initialized : Error :=
  RuntimeError "Engine not initialized. Use with statement.".

Inductive Color := White | Black.

(** ** Loops over engine updates *)

(** How one iteration of a [for info in analysis] body ends. *)
Inductive Flow (State : Type) :=
| Next (s : State)
| Break (s : State).
Arguments Next {State} s.
Arguments Break {State} s.

(** The outcome of a loop over the updates: the locals when it is left, how
    many updates were taken, and whether it was left by [break]. *)
Record LoopEnd (State : Type) := mkLoopEnd {
  loop_state : State;
  loop_taken : nat;
  loop_broke : bool
}.
Arguments mkLoopEnd {State} _ _ _.
Arguments loop_state {State} _.
Arguments loop_taken {State} _.
Arguments loop_broke {State} _.

Section Analyzer.

(** Moves are compared with [!=] by the convergence loops. *)
Context {Move : Type} (Move_eq_dec : forall a b : Move, {a = b} + {a <> b}).

(** An engine info dictionary, restricted to the keys the analyzer reads. *)
Record Info := mkInfo {
  info_pv : option (list Move);
  info_depth : option Z;
  info_score : option Score
}.

(** *** [_extract_evaluation] (lines 138-152) *)

Definition _extract_evaluation (info : Info) : option Q :=
  match info_score info with
  | Some score =>
      match score with
      | Mate mate_distance =>
          if (mate_distance >? 0)%Z
          then Some (inject_Z (Z.min 99 (1000 - mate_distance)))
          else Some (inject_Z (Z.max (-99) (-1000 + mate_distance)))
      | Cp cp => Some (inject_Z cp / 100)
      end
  | None => None
  end.

(** *** [_calculate_eval_change] (lines 154-168) *)

Definition _calculate_eval_change (eval_before eval_after : option Q) : option Q :=
  match eval_before, eval_after with
  | Some before, Some after => Some ((- after) - before)
  | _, _ => None
  end.

(** *** The time budget of one ply (lines 96-101 of [analyze_game]) *)

Definition decided (eval_before : option Q) : bool :=
  match eval_before with
  | Some e => Qgtb (Qabs e) GAME_OVER_EVAL_THRESHOLD
  | None => false
  end.

Definition ply_time_limit (ply_index : Z) (eval_before : option Q) : Q :=
  if (ply_index + 1 <? QUICK_ANALYSIS_PLY)%Z then QUICK_ANALYSIS_TIME
  else if decided eval_before then QUICK_ANALYSIS_TIME
  else TIME_LIMIT.

(** ** The python-chess collaborators *)

(** The board operations the analyzer calls.  [Board_push] returns the board
    that [board.push(move)] leaves behind; [move_bool] is the truth value
    of a move (python-chess makes the null move false). *)
Record Rules (Board : Type) := mkRules {
  Board_turn : Board -> Color;
  Board_san : Board -> Move -> string;
  Board_fen : Board -> string;
  Board_push : Board -> Move -> Board;
  Board_is_game_over : Board -> bool;
  move_bool : Move -> bool
}.
Arguments Board_turn {Board} _ _.
Arguments Board_san {Board} _ _ _.
Arguments Board_fen {Board} _ _.
Arguments Board_push {Board} _ _ _.
Arguments Board_is_game_over {Board} _ _.
Arguments move_bool {Board} _ _.

Context {Board : Type} (rules : Rules Board).

(** A parsed game: [game.board()] and the moves of [game.mainline()]. *)
Record Game := mkGame {
  game_board : Board;
  game_mainline : list Move
}.

(** One update taken from [engine.analysis]: the info dictionary and what
    [time.time()] returns while the loop body handles it. *)
Record Update := mkUpdate {
  upd_info : Info;
  upd_clock : Q
}.

(** A streaming search: its updates in arrival order, and the clock read
    after the [with] block is left once [k] updates have been taken. *)
Record Stream := mkStream {
  stream_updates : list Update;
  stream_closed : nat -> Q
}.

(** What [engine.analyse] returns (a list of info dictionaries under
    [multipv], a single dictionary otherwise) and the clock read after it. *)
Inductive AnalyseReply :=
| ReplyList (infos : list Info)
| ReplyDict (info : Info).

Record Answer := mkAnswer {
  answer_reply : AnalyseReply;
  answer_clock : Q
}.

(** The engine process, by the answers it gives to the [n]-th request of a
    run: the clock when the request starts, the blocking answer and the
    streaming one. *)
Record Engine := mkEngine {
  engine_clock : nat -> Q;
  engine_analyse : nat -> Board -> Q -> Answer;
  engine_analysis : nat -> Board -> Q -> Stream
}.

Record GameAnalyzer := mkGameAnalyzer {
  stockfish_path : string;
  engine : option Engine
}.

(** [__init__] and [__enter__] ([popen_uci] hands over the engine). *)
Definition GameAnalyzer_init (path : string) : GameAnalyzer :=
  {| stockfish_path := path; engine := None |}.

Definition GameAnalyzer_enter (self : GameAnalyzer) (popen_uci : Engine) : GameAnalyzer :=
  {| stockfish_path := stockfish_path self; engine := Some popen_uci |}.

(** ** Analysis results *)

(** The dictionary [analyze_position] returns. *)
Record PositionAnalysis := mkPositionAnalysis {
  best_move : option Move;
  evaluation : option Q;
  principal_variation : list Move;
  time_taken : Q
}.

(** The dictionary [analyze_game] appends for one ply. *)
Record MoveRecord := mkMoveRecord {
  move_number : Z;
  player : string;
  move : Move;
  san : string;
  eval_before : option Q;
  eval_after : option Q;
  eval_change : option Q;
  board_fen : string;
  pre_move_fen : string;
  ply_index : Z;
  time_taken_before : Q;
  time_taken_after : Q;
  position_analysis : PositionAnalysis
}.

(** ** [analyze_position] (lines 184-301) *)

(** The locals of the stability loop (lines 205-209). *)
Record StabilityState := mkStabilityState {
  last_best_move : option Move;
  last_change_time : Q;
  best_pv : option (list Move);
  best_eval : option Q;
  last_depth : Z
}.

Definition stability_start (start_time : Q) : StabilityState :=
  {| last_best_move := None;
     last_change_time := start_time;
     best_pv := None;
     best_eval := None;
     last_depth := 0 |}.

(** [current_best_move != last_best_move] *)
Definition move_differs (current : Move) (last : option Move) : bool :=
  match last with
  | Some m => if Move_eq_dec current m then false else true
  | None => true
  end.

(** The body of the loop at lines 213-268 for one update. *)
Definition stability_step (st : StabilityState) (u : Update) : Flow StabilityState :=
  let info := upd_info u in
  let current_depth := match info_depth info with Some d => d | None => 0%Z end in
  match info_pv info with
  | None | Some [] => Next st
  | Some ((current_best_move :: _) as current_pv) =>
      let current_eval := _extract_evaluation info in
      if move_differs current_best_move (last_best_move st) then
        Next {| last_best_move := Some current_best_move;
                last_change_time := upd_clock u;
                best_pv := Some current_pv;
                best_eval := current_eval;
                last_depth := current_depth |}
      else
        let current_time := upd_clock u in
        let stability_elapsed := current_time - last_change_time st in
        if Qgeb stability_elapsed STABILITY_THRESHOLD then Break st
        else
          Next {| last_best_move := last_best_move st;
                  last_change_time := last_change_time st;
                  best_pv := Some current_pv;
                  best_eval := current_eval;
                  last_depth := current_depth |}
  end.

Fixpoint run_loop {State : Type} (step : State -> Update -> Flow State)
    (st : State) (taken : nat) (updates : list Update) : LoopEnd State :=
  match updates with
  | [] => mkLoopEnd st taken false
  | u :: rest =>
      match step st u with
      | Next st' => run_loop step st' (S taken) rest
      | Break st' => mkLoopEnd st' (S taken) true
      end
  end.

Definition stability_loop (start_time : Q) (updates : list Update)
    : LoopEnd StabilityState :=
  run_loop stability_step (stability_start start_time) 0 updates.

(** [pv[:7] if pv else []] *)
Definition first_seven (pv : option (list Move)) : list Move :=
  match pv with
  | Some moves => firstn 7 moves
  | None => []
  end.

(** The time-based branch (lines 280-299) once the engine has answered. *)
Definition blocking_result (reply : AnalyseReply) (elapsed : Q) : PositionAnalysis :=
  let analysis_result :=
    {| best_move := None; evaluation := None;
       principal_variation := []; time_taken := elapsed |} in
  let fill (info : Info) :=
    let with_pv :=
      match info_pv info with
      | Some ((first :: _) as pv) =>
          {| best_move := Some first;
             evaluation := evaluation analysis_result;
             principal_variation := firstn 7 pv;
             time_taken := time_taken analysis_result |}
      | _ => analysis_result
      end in
    match info_score info with
    | Some _ =>
        {| best_move := best_move with_pv;
           evaluation := _extract_evaluation info;
           principal_variation := principal_variation with_pv;
           time_taken := time_taken with_pv |}
    | None => with_pv
    end in
  match reply with
  | ReplyList [] => analysis_result
  | ReplyList (info :: _) => fill info
  | ReplyDict info => fill info
  end.

(** [request] numbers the engine requests of the run. *)
Definition analyze_position (self : GameAnalyzer) (request : nat)
    (board : Board) (time_limit : Q) : Result PositionAnalysis :=
  match engine self with
  | None => Raise engine_not_initialized
  | Some eng =>
      let start_time := engine_clock eng request in
      let use_stability :=
        String.eqb ANALYSIS_MODE "stability"
        && negb (Qeq_bool time_limit QUICK_ANALYSIS_TIME) in
      if use_stability then
        let analysis := engine_analysis eng request board 86400 in
        let done := stability_loop start_time (stream_updates analysis) in
        let end_time := stream_closed analysis (loop_taken done) in
        let st := loop_state done in
        Ok {| best_move := last_best_move st;
              evaluation := best_eval st;
              principal_variation := first_seven (best_pv st);
              time_taken := end_time - start_time |}
      else
        let answer := engine_analyse eng request board time_limit in
        let end_time := answer_clock answer in
        Ok (blocking_result (answer_reply answer) (end_time - start_time))
  end.

(** ** [analyze_game] (lines 50-136) *)

Definition player_name (c : Color) : string :=
  match c with White => "White" | Black => "Black" end.

(** The [for node in mainline_nodes] loop; [request] is the number of the
    next engine request. *)
Fixpoint game_loop (self : GameAnalyzer) (nodes : list Move) (board : Board)
    (move_number ply_index : Z) (current_analysis : PositionAnalysis)
    (request : nat) (moves_analysis : list MoveRecord)
    : Result (list MoveRecord) :=
  match nodes with
  | [] => Ok moves_analysis
  | move :: rest =>
      let player := player_name (Board_turn rules board) in
      let san_move := Board_san rules board move in
      let pre_move_fen := Board_fen rules board in
      let board := Board_push rules board move in
      let eval_before := evaluation current_analysis in
      let time_limit := ply_time_limit ply_index eval_before in
      next_analysis <- analyze_position self request board time_limit ;;
      let eval_after := evaluation next_analysis in
      let eval_change := _calculate_eval_change eval_before eval_after in
      let move_data :=
        {| move_number := move_number;
           player := player;
           move := move;
           san := san_move;
           eval_before := eval_before;
           eval_after := eval_after;
           eval_change := eval_change;
           board_fen := Board_fen rules board;
           pre_move_fen := pre_move_fen;
           ply_index := ply_index;
           time_taken_before := time_taken current_analysis;
           time_taken_after := time_taken next_analysis;
           position_analysis := current_analysis |} in
      let moves_analysis := moves_analysis ++ [move_data] in
      if Board_is_game_over rules board then Ok moves_analysis
      else
        let move_number :=
          match Board_turn rules board with
          | White => (move_number + 1)%Z
          | Black => move_number
          end in
        game_loop self rest board move_number (ply_index + 1)%Z
                  next_analysis (S request) moves_analysis
  end.

Definition analyze_game (self : GameAnalyzer) (game : Game)
    : Result (list MoveRecord) :=
  match engine self with
  | None => Raise engine_not_initialized
  | Some _ =>
      let mainline_nodes := game_mainline game in
      let board := game_board game in
      current_analysis <- analyze_position self 0 board QUICK_ANALYSIS_TIME ;;
      game_loop self mainline_nodes board 1 0 current_analysis 1 []
  end.

(** ** [analyze_specific_move] (lines 303-467) *)

(** The locals of its streaming loop (lines 348-352). *)
Record DeepState := mkDeepState {
  last_pv : option (list Move);
  last_eval : option Q;
  deep_last_depth : Z;
  deep_last_best_move : option Move;
  deep_last_change_time : Q
}.

Definition deep_start (start_time : Q) : DeepState :=
  {| last_pv := None; last_eval := None; deep_last_depth := 0;
     deep_last_best_move := None; deep_last_change_time := start_time |}.

(** The body of the loop at lines 364-441 for one update. *)
Definition deep_step (start_time duration_seconds : Q)
    (st : DeepState) (u : Update) : Flow DeepState :=
  let info := upd_info u in
  let current_eval := _extract_evaluation info in
  let current_depth := match info_depth info with Some d => d | None => 0%Z end in
  match info_pv info with
  | None | Some [] => Next st
  | Some ((current_best_move :: _) as display_pv) =>
      let best_move_changed :=
        match last_pv st with
        | None => true
        | Some _ => move_differs current_best_move (deep_last_best_move st)
        end in
      let tracked change_time :=
        {| last_pv := Some display_pv;
           last_eval := current_eval;
           deep_last_depth := current_depth;
           deep_last_best_move := Some current_best_move;
           deep_last_change_time := change_time |} in
      let timed_out (st' : DeepState) :=
        if String.eqb ANALYSIS_MODE "time"
           && Qgtb (upd_clock u - start_time) duration_seconds
        then Break st' else Next st' in
      if best_move_changed then timed_out (tracked (upd_clock u))
      else
        let st' := tracked (deep_last_change_time st) in
        if String.eqb ANALYSIS_MODE "stability" then
          let current_time := upd_clock u in
          if Qgeb (current_time - deep_last_change_time st) STABILITY_THRESHOLD
          then Break st' else timed_out st'
        else timed_out st'
  end.

(** The function prints and returns nothing; the model returns what its
    closing report is made of. *)
Record DeepReport := mkDeepReport {
  report_variation : list Move;
  report_eval : option Q;
  report_advantage : option Q;
  report_elapsed : Q
}.

Definition analyze_specific_move (self : GameAnalyzer) (board : Board)
    (duration_seconds : Q) (actual_move : option Move) : Result DeepReport :=
  match engine self with
  | None => Raise engine_not_initialized
  | Some eng =>
      let played :=
        match actual_move with
        | Some m => if move_bool rules m then Some m else None
        | None => None
        end in
      let actual_move_eval :=
        match played with
        | Some m =>
            let test_board := Board_push rules board m in
            match analyze_position self 0 test_board 10 with
            | Ok actual_analysis =>
                match evaluation actual_analysis with
                | Some e => Some (- e)
                | None => None
                end
            | Raise _ => None
            end
        | None => None
        end in
      let request := match played with Some _ => 1%nat | None => 0%nat end in
      let start_time := engine_clock eng request in
      let analysis_limit :=
        if String.eqb ANALYSIS_MODE "stability" then 86400 else duration_seconds in
      let analysis := engine_analysis eng request board analysis_limit in
      let done := run_loop (deep_step start_time duration_seconds)
                    (deep_start start_time) 0 (stream_updates analysis) in
      let st := loop_state done in
      let elapsed_total := stream_closed analysis (loop_taken done) - start_time in
      match last_pv st with
      | None | Some [] =>
          Ok {| report_variation := []; report_eval := None;
                report_advantage := None; report_elapsed := elapsed_total |}
      | Some pv =>
          match last_eval st with
          | None =>
              Raise (TypeError "unsupported format string passed to NoneType.__format__")
          | Some e =>
              Ok {| report_variation := firstn 7 pv;
                    report_eval := Some e;
                    report_advantage :=
                      match actual_move_eval with
                      | Some a => Some (e - a)
                      | None => None
                      end;
                    report_elapsed := elapsed_total |}
          end
      end
  end.

(** ** [find_worst_moves] (lines 170-182) *)

(** The condition of the list comprehension. *)
Definition has_valid_change (m : MoveRecord) : bool :=
  match eval_change m with
  | Some _ =>
      match eval_before m with
      | None => true
      | Some e => Qle_bool (Qabs e) GAME_OVER_EVAL_THRESHOLD
      end
  | None => false
  end.

End Analyzer.

Arguments Board_turn {Move Board} _ _.
Arguments Board_san {Move Board} _ _ _.
Arguments Board_fen {Move Board} _ _.
Arguments Board_push {Move Board} _ _ _.
Arguments Board_is_game_over {Move Board} _ _.
Arguments move_bool {Move Board} _ _.

(** [list.sort(key=...)]: Python's sort is stable and compares keys with
    [<] only, so its result is the one arrangement that orders the keys and
    keeps the elements of equal keys in their original order; insertion
    from the right computes that arrangement.  A [None] key makes Python's
    [<] raise [TypeError]; [find_worst_moves] sorts only records that passed
    its [is not None] filter. *)
Section Sort.

Context {A : Type} (key : A -> option Q).

Definition key_lt (a b : A) : bool :=
  match key a, key b with
  | Some x, Some y => Qltb x y
  | _, _ => false
  end.

Fixpoint sort_insert (x : A) (l : list A) : list A :=
  match l with
  | [] => [x]
  | y :: l' => if key_lt y x then y :: sort_insert x l' else x :: y :: l'
  end.

Fixpoint list_sort (l : list A) : list A :=
  match l with
  | [] => []
  | x :: xs => sort_insert x (list_sort xs)
  end.

(** [a] may stand before [b] in ascending order of keys. *)
Definition key_le (a b : A) : Prop :=
  exists x y, key a = Some x /\ key b = Some y /\ x <= y.

(** The key of [a] is the number [k]. *)
Definition key_is (k : Q) (a : A) : bool :=
  match key a with
  | Some x => Qeq_bool x k
  | None => false
  end.

End Sort.

Section WorstMoves.

Context {Move : Type}.

Definition find_worst_moves (analysis : list (@MoveRecord Move))
    : list (@MoveRecord Move) :=
  let moves_with_change := filter has_valid_change analysis in
  let moves_with_change := list_sort eval_change moves_with_change in
  firstn TOP_N moves_with_change.

(** Ascending order of swings, and the records of one swing. *)
Definition swing_le (a b : @MoveRecord Move) : Prop := key_le eval_change a b.

Definition swing_is (k : Q) (m : @MoveRecord Move) : bool := key_is eval_change k m.

(** The pre-move evaluation is present and beyond the decided threshold. *)
Definition was_decided (m : @MoveRecord Move) : Prop :=
  exists e, eval_before m = Some e /\ GAME_OVER_EVAL_THRESHOLD < Qabs e.

End WorstMoves.

(** ** The object store

    [find_worst_moves] receives a reference to a list object whose items
    are references to dictionaries.  Objects live in a store, addressed by
    position; the comprehension and the slice allocate new list objects,
    [list.sort] overwrites the list object it is called on. *)
Section Store.

Context {Move : Type}.

Definition Ref := nat.

Inductive Object :=
| ListObject (items : list Ref)
| DictObject (record : @MoveRecord Move).

Definition Store := list Object.

Definition store_alloc (s : Store) (o : Object) : Ref * Store :=
  (List.length s, s ++ [o]).

Fixpoint store_write (s : Store) (r : Ref) (o : Object) : Store :=
  match s, r with
  | [], _ => []
  | _ :: rest, O => o :: rest
  | x :: rest, S r' => x :: store_write rest r' o
  end.

Definition read_list (s : Store) (r : Ref) : Result (list Ref) :=
  match nth_error s r with
  | Some (ListObject items) => Ok items
  | _ => Raise (TypeError "object is not a list")
  end.

Definition read_dict (s : Store) (r : Ref) : Result (@MoveRecord Move) :=
  match nth_error s r with
  | Some (DictObject record) => Ok record
  | _ => Raise (TypeError "object is not a dict")
  end.

Fixpoint read_dicts (s : Store) (rs : list Ref) : Result (list (@MoveRecord Move)) :=
  match rs with
  | [] => Ok []
  | r :: rest =>
      record <- read_dict s r ;;
      records <- read_dicts s rest ;;
      Ok (record :: records)
  end.

(** [m.get(k)] and [x[k]] on the dictionary behind a reference. *)
Definition ref_test (s : Store) (r : Ref) : bool :=
  match nth_error s r with
  | Some (DictObject record) => has_valid_change record
  | _ => false
  end.

Definition ref_key (s : Store) (r : Ref) : option Q :=
  match nth_error s r with
  | Some (DictObject record) => eval_change record
  | _ => None
  end.

(** [find_worst_moves] on the store: the reference it returns and the
    store it leaves. *)
Definition find_worst_moves_in (s : Store) (analysis : Ref) : Result (Ref * Store) :=
  items <- read_list s analysis ;;
  _ <- read_dicts s items ;;
  let '(moves_with_change, s1) :=
    store_alloc s (ListObject (filter (ref_test s) items)) in
  kept <- read_list s1 moves_with_change ;;
  let s2 := store_write s1 moves_with_change
              (ListObject (list_sort (ref_key s1) kept)) in
  sorted <- read_list s2 moves_with_change ;;
  let '(result, s3) := store_alloc s2 (ListObject (firstn TOP_N sorted)) in
  Ok (result, s3).

(** The records a list reference stands for. *)
Definition list_records (s : Store) (r : Ref) : Result (list (@MoveRecord Move)) :=
  items <- read_list s r ;;
  read_dicts s items.

End Store.

(** ** Update streams *)
Section Streams.

Context {Move : Type}.

(** The leading move of an update, when it carries a variation. *)
Definition leading (u : @Update Move) : option Move :=
  match info_pv (upd_info u) with
  | Some (m :: _) => Some m
  | _ => None
  end.

(** The updates lead with [a], [b], [a], [b], ... in turn. *)
Fixpoint alternates (a b : Move) (updates : list (@Update Move)) : Prop :=
  match updates with
  | [] => True
  | u :: rest => leading u = Some a /\ alternates b a rest
  end.

(** Consecutive updates are at most [gap] seconds apart. *)
Fixpoint spaced (gap : Q) (updates : list (@Update Move)) : Prop :=
  match updates with
  | u :: rest =>
      match rest with
      | v :: _ => upd_clock v - upd_clock u <= gap
      | [] => True
      end /\ spaced gap rest
  | [] => True
  end.

End Streams.

(** ** A concrete instance: moves in UCI notation, boards as move lists *)
Module Sample.

Local Open Scope string_scope.

Definition Move := string.
Definition Board := list Move.

Definition rules : Rules (Move := Move) Board :=
  {| Board_turn := fun b => if Nat.even (List.length b) then White else Black;
     Board_san := fun _ m => m;
     Board_fen := fun b => String.concat " " b;
     Board_push := fun b m => (b ++ [m])%list;
     Board_is_game_over := fun _ => false;
     move_bool := fun m => negb (String.eqb m "0000") |}.

Definition update (pv : list Move) (depth : Z) (score : Score) (clock : Q)
    : @Update Move :=
  {| upd_info := {| info_pv := Some pv; info_depth := Some depth;
                    info_score := Some score |};
     upd_clock := clock |}.

(** A search that keeps 1. e4 on top: a first line at the start, a deeper
    one with a new score ten seconds later. *)
Definition steady : list (@Update Move) :=
  [ update ["e2e4"] 10 (Cp 20) 0;
    update ["e2e4"; "e7e5"] 30 (Cp 35) 10 ].

(** A search that keeps changing its mind every five seconds. *)
Definition wavering : list (@Update Move) :=
  [ update ["e2e4"] 10 (Cp 20) 0;
    update ["d2d4"] 12 (Cp 25) 5;
    update ["e2e4"] 14 (Cp 22) 10;
    update ["d2d4"] 16 (Cp 24) 15 ].

Definition engine_of (updates : list (@Update Move)) : @Engine Move Board :=
  {| engine_clock := fun _ => 0;
     engine_analyse := fun _ _ _ =>
       {| answer_reply := ReplyList []; answer_clock := 1 # 10 |};
     engine_analysis := fun _ _ _ =>
       {| stream_updates := updates; stream_closed := fun _ => 10 |} |}.

Definition analyzer (updates : list (@Update Move)) : @GameAnalyzer Move Board :=
  GameAnalyzer_enter (GameAnalyzer_init "/usr/bin/stockfish") (engine_of updates).

Definition game : @Game Move Board :=
  {| game_board := []; game_mainline := ["e2e4"; "e7e5"; "g1f3"] |}.

Definition verdict (e : option Q) : @PositionAnalysis Move :=
  {| best_move := None; evaluation := e; principal_variation := [];
     time_taken := 1 # 10 |}.

Definition record (ply : Z) (before change : option Q) : @MoveRecord Move :=
  {| move_number := ply / 2 + 1;
     player := if Z.even ply then "White" else "Black";
     move := "e2e4"; san := "e4";
     eval_before := before; eval_after := None; eval_change := change;
     board_fen := ""; pre_move_fen := "";
     ply_index := ply;
     time_taken_before := 1 # 10; time_taken_after := 1 # 10;
     position_analysis := verdict before |}.

Definition analysis : list (@MoveRecord Move) :=
  [ record 0 (Some (1 # 5)) (Some (- (1 # 2)));
    record 1 None None;
    record 2 (Some 15) (Some (- 30));
    record 3 None (Some (- 2));
    record 4 (Some (1 # 2)) (Some (- 2));
    record 5 (Some 0) (Some (1 # 4)) ].

(** The same records in a store: six dictionaries and the list of them. *)
Definition store : @Store Move :=
  (map DictObject analysis ++ [ListObject [0; 1; 2; 3; 4; 5]%nat])%list.

End Sample.

(** ** [print_worst_moves_report] (lines 469-535)

    The function only prints.  The model returns what the report is made
    of when the function completes: one entry per record, the closing
    assessment and the total time.  The header lines, which read the PGN
    headers, are left out. *)
Section Reporting.

Context {Move : Type} (Move_eq_dec : forall a b : Move, {a = b} + {a <> b}).
Context {Board : Type} (rules : @Rules Move Board).

(** The remark under an entry (lines 503-509). *)
Inductive Remark :=
| RemarkDecided
| RemarkSerious
| RemarkMistake.

Definition remark_of (eval_change : Q) : option Remark :=
  if Qgtb (Qabs eval_change) 100 then Some RemarkDecided
  else if Qltb eval_change (-3) then Some RemarkSerious
  else if Qltb eval_change (-1) then Some RemarkMistake
  else None.

Record ReportEntry := mkReportEntry {
  entry_rank : nat;
  entry_move_number : Z;
  entry_player : string;
  entry_move : string;
  entry_eval_change : Q;
  entry_time : Q;
  entry_preferred : option Move;
  entry_continuation : list Move;
  entry_remark : option Remark
}.

(** Formatting [None] with [:+.2f] raises. *)
Definition format_none : Error :=
  TypeError "unsupported format string passed to NoneType.__format__".

(** The body of the loop at lines 484-511 for the [i]-th record. *)
Definition report_entry (i : nat) (move_data : @MoveRecord Move) : Result ReportEntry :=
  let position_analysis := position_analysis move_data in
  let total_time := time_taken_before move_data + time_taken_after move_data in
  match eval_change move_data with
  | None => Raise format_none
  | Some eval_change =>
      let preferred :=
        match best_move position_analysis with
        | Some m => if move_bool rules m then Some m else None
        | None => None
        end in
      Ok {| entry_rank := i;
            entry_move_number := move_number move_data;
            entry_player := player move_data;
            entry_move := san move_data;
            entry_eval_change := eval_change;
            entry_time := total_time;
            entry_preferred := preferred;
            entry_continuation :=
              match preferred with
              | Some _ => principal_variation position_analysis
              | None => []
              end;
            entry_remark := remark_of eval_change |}
  end.

(** [for i, move_data in enumerate(worst_moves, i)] *)
Fixpoint report_entries (i : nat) (worst_moves : list (@MoveRecord Move))
    : Result (list ReportEntry) :=
  match worst_moves with
  | [] => Ok []
  | move_data :: rest =>
      entry <- report_entry i move_data ;;
      entries <- report_entries (S i) rest ;;
      Ok (entry :: entries)
  end.

(** The "Largest swing" lines of the assessment. *)
Record Assessment := mkAssessment {
  worst_move_number : Z;
  worst_player : string;
  worst_move_str : string;
  worst_eval_change : Q
}.

Record Report := mkReport {
  report_entries_printed : list ReportEntry;
  report_assessment : option Assessment;
  report_total_time : Q
}.

Definition print_worst_moves_report (game : @Game Move Board)
    (worst_moves : list (@MoveRecord Move)) : Result Report :=
  entries <- report_entries 1 worst_moves ;;
  assessment <-
    match worst_moves with
    | worst :: _ =>
        match eval_change worst with
        | Some eval_change =>
            Ok (Some {| worst_move_number := move_number worst;
                        worst_player := player worst;
                        worst_move_str := san worst;
                        worst_eval_change := eval_change |})
        | None => Raise format_none
        end
    | [] => Ok None
    end ;;
  Ok {| report_entries_printed := entries;
        report_assessment := assessment;
        report_total_time :=
          fold_left (fun total m => total + (time_taken_before m + time_taken_after m))
                    worst_moves 0 |}.

(** ** [main] (lines 538-636)

    The command line is taken as parsed and the PGN as loaded; the debug
    table, which only prints, is left out. *)
Record Args := mkArgs {
  args_debug : bool;
  args_analyze_move : option Z;
  args_color : string;
  args_duration : Q
}.

(** Lines 587-589. *)
Definition target_ply_of (analyze_move : Z) (color : string) : Z :=
  let target_ply := ((analyze_move - 1) * 2)%Z in
  if String.eqb color "black" then (target_ply + 1)%Z else target_ply.

(** [l[i]] on a Python list: a negative index counts from the end; [None]
    stands for [IndexError]. *)
Definition list_index {A : Type} (l : list A) (i : Z) : option A :=
  let len := Z.of_nat (List.length l) in
  if (0 <=? i)%Z then nth_error l (Z.to_nat i)
  else if (0 <=? len + i)%Z then nth_error l (Z.to_nat (len + i))
  else None.

(** [for i in range(target_ply): board.push(mainline[i].move)], run when
    [target_ply] is at most the length of the mainline. *)
Definition advance (board : Board) (mainline : list Move) (target_ply : Z) : Board :=
  fold_left (Board_push rules) (firstn (Z.to_nat target_ply) mainline) board.

Inductive MainOutcome :=
| BeyondEnd
| DeepAnalysis (report : @DeepReport Move)
| FullReport (analysis worst_moves : list (@MoveRecord Move)) (report : Report).

(** How [main] ends: it returns, or an exception leaves it. *)
Inductive MainResult :=
| Returns (outcome : MainOutcome)
| Uncaught (e : Error)
| UncaughtIndexError.

Definition main (args : Args) (popen_uci : @Engine Move Board)
    (game : @Game Move Board) : MainResult :=
  let analyzer :=
    GameAnalyzer_enter (GameAnalyzer_init "/usr/bin/stockfish") popen_uci in
  let deep :=
    match args_analyze_move args with
    | Some n => if (n =? 0)%Z then None else Some n
    | None => None
    end in
  match deep with
  | Some analyze_move =>
      let board := game_board game in
      let target_ply := target_ply_of analyze_move (args_color args) in
      let mainline := game_mainline game in
      let len := Z.of_nat (List.length mainline) in
      if (target_ply >? len)%Z then Returns BeyondEnd
      else
        let board := advance board mainline target_ply in
        let run actual_move :=
          match analyze_specific_move Move_eq_dec rules analyzer board
                  (args_duration args) actual_move with
          | Ok report => Returns (DeepAnalysis report)
          | Raise e => Uncaught e
          end in
        if (target_ply <? len)%Z then
          match list_index mainline target_ply with
          | Some actual_move => run (Some actual_move)
          | None => UncaughtIndexError
          end
        else run None
  | None =>
      match analyze_game Move_eq_dec rules analyzer game with
      | Ok analysis =>
          let worst_moves := find_worst_moves analysis in
          match print_worst_moves_report game worst_moves with
          | Ok report => Returns (FullReport analysis worst_moves report)
          | Raise e => Uncaught e
          end
      | Raise e => Uncaught e
      end
  end.

End Reporting.

(** ** Notions used to state the properties *)
Section Notions.

Context {Move : Type} {Board : Type} (rules : @Rules Move Board).

(** The last update of a list that carries a variation. *)
Fixpoint last_usable (updates : list (@Update Move)) : option (@Update Move) :=
  match updates with
  | [] => None
  | u :: rest =>
      match last_usable rest with
      | Some v => Some v
      | None => match leading u with Some _ => Some u | None => None end
      end
  end.

(** The board after the first [k] moves of a line. *)
Definition board_after (board : Board) (line : list Move) (k : nat) : Board :=
  fold_left (Board_push rules) (firstn k line) board.

Definition other (c : Color) : Color :=
  match c with White => Black | Black => White end.

(** Turns alternate: a move hands the turn to the other side. *)
Definition alternating : Prop :=
  forall board move, Board_turn rules (Board_push rules board move)
                     = other (Board_turn rules board).

(** The locals of the stability loop hold what update [seen] carried, or
    are untouched since [start_time] when there was none. *)
Definition tracks (st : @StabilityState Move) (seen : option (@Update Move))
    (start_time : Q) : Prop :=
  match seen with
  | Some u =>
      last_best_move st = leading u
      /\ best_pv st = info_pv (upd_info u)
      /\ best_eval st = _extract_evaluation (upd_info u)
  | None => st = stability_start start_time
  end.

(** The same for the locals of the deep loop. *)
Definition deep_tracks (st : @DeepState Move) (seen : option (@Update Move))
    (start_time : Q) : Prop :=
  match seen with
  | Some u =>
      deep_last_best_move st = leading u
      /\ last_pv st = info_pv (upd_info u)
      /\ last_eval st = _extract_evaluation (upd_info u)
  | None => st = deep_start start_time
  end.


(** [records] are the records of consecutive plies along [line] from
    [board] on: the first one is ply [ply] and starts from the verdict
    [current]; each one starts from the verdict the one before ended with;
    only the last one may leave a finished game. *)
Fixpoint follows (board : Board) (line : list Move) (ply : Z)
    (current : @PositionAnalysis Move) (records : list (@MoveRecord Move))
    {struct records} : Prop :=
  match records with
  | [] => True
  | r :: rest =>
      match line with
      | [] => False
      | m :: line' =>
          move r = m
          /\ ply_index r = ply
          /\ pre_move_fen r = Board_fen rules board
          /\ board_fen r = Board_fen rules (Board_push rules board m)
          /\ san r = Board_san rules board m
          /\ player r = player_name (Board_turn rules board)
          /\ position_analysis r = current
          /\ eval_before r = evaluation current
          /\ time_taken_before r = time_taken current
          /\ (rest = [] \/ Board_is_game_over rules (Board_push rules board m) = false)
          /\ exists next,
               eval_after r = evaluation next
               /\ time_taken_after r = time_taken next
               /\ follows (Board_push rules board m) line' (ply + 1) next rest
      end
  end.

(** The value [--color] takes for a player name. *)
Definition color_option (player : string) : string :=
  if String.eqb player "Black" then "black" else "white".

End Notions.

(** ** More sample data *)
Module Demo.

Local Open Scope string_scope.
Import Sample.


(** Updates with a score and no variation. *)
Definition silent : list (@Update Move) :=
  [ {| upd_info := {| info_pv := None; info_depth := Some 10%Z;
                      info_score := Some (Cp 20) |};
       upd_clock := 0 |};
    {| upd_info := {| info_pv := Some []; info_depth := Some 12%Z;
                      info_score := Some (Cp 25) |};
       upd_clock := 5 |} ].

(** An engine whose blocking answers carry a variation and a score. *)
Definition scoring_engine : @Engine Move Board :=
  {| engine_clock := fun n => inject_Z (Z.of_nat n);
     engine_analyse := fun n _ _ =>
       {| answer_reply :=
            ReplyList [ {| info_pv := Some ["e2e4"; "e7e5"];
                           info_depth := Some 12%Z;
                           info_score := Some (Cp (Z.of_nat n * 10)) |} ];
          answer_clock := inject_Z (Z.of_nat n) + (1 # 10) |};
     engine_analysis := fun _ _ _ =>
       {| stream_updates := steady; stream_closed := fun _ => 10 |} |}.

Definition analyzer : @GameAnalyzer Move Board :=
  GameAnalyzer_enter (GameAnalyzer_init "/usr/bin/stockfish") scoring_engine.

(** The records of the sample game. *)
Definition records : list (@MoveRecord Move) :=
  match analyze_game string_dec rules analyzer game with
  | Ok analysis => analysis
  | Raise _ => []
  end.

Definition ply (i : nat) : @MoveRecord Move := nth i records (record 0 None None).

Definition args_full : Args :=
  {| args_debug := false; args_analyze_move := None;
     args_color := "white"; args_duration := 240 |}.

Definition args_black_1 : Args :=
  {| args_debug := false; args_analyze_move := Some 1%Z;
     args_color := "black"; args_duration := 240 |}.


End Demo.

(** * Properties *)

(** ** Numbers *)

Lemma Qltb_lt x y : Qltb x y = true <-> x < y.
Proof.
  unfold Qltb. rewrite negb_true_iff, <- not_true_iff_false, Qle_bool_iff.
  split; [apply Qnot_le_lt | apply Qlt_not_le].
Qed.

Lemma Qltb_ge x y : Qltb x y = false <-> y <= x.
Proof.
  unfold Qltb. rewrite negb_false_iff. apply Qle_bool_iff.
Qed.

Lemma Qgeb_ge x y : Qgeb x y = true <-> y <= x.
Proof. apply Qle_bool_iff. Qed.

Lemma Qabs_inject_Z z : Qabs (inject_Z z) = inject_Z (Z.abs z).
Proof. reflexivity. Qed.

Lemma pawns_le (c : Z) (k : Z) : inject_Z c / 100 <= inject_Z k <-> (c <= k * 100)%Z.
Proof.
  unfold Qle, Qdiv, Qmult, Qinv, inject_Z; cbn -[Z.mul]. lia.
Qed.

Lemma pawns_ge (c : Z) (k : Z) : inject_Z k <= inject_Z c / 100 <-> (k * 100 <= c)%Z.
Proof.
  unfold Qle, Qdiv, Qmult, Qinv, inject_Z; cbn -[Z.mul]. lia.
Qed.

(** ** Evaluation swing *)

(** C1.  When both evaluations are present the swing is
    [(- eval_after) - eval_before]; the swing is absent exactly when one of
    the two evaluations is absent, and an absent swing is [None], not zero. *)
Theorem eval_change_negates_and_propagates
    (b a : Q) (before after : option Q) :
  _calculate_eval_change (Some b) (Some a) = Some ((- a) - b)
  /\ (_calculate_eval_change before after = None
      <-> before = None \/ after = None).
Proof.
  split; [reflexivity|].
  destruct before, after; simpl; split; intro H;
    try reflexivity; try discriminate; auto.
  destruct H; discriminate.
Qed.

(** ** The normaliser *)

Section Normalizer.

Context {Move : Type}.
Variables (pv : option (list Move)) (depth : option Z).

Local Abbreviation raw score := (@mkInfo Move pv depth score).

Lemma extract_mate_favourable (n : Z) :
  (0 < n)%Z ->
  _extract_evaluation (raw (Some (Mate n)))
  = Some (inject_Z (Z.min 99 (1000 - n))).
Proof.
  intro H. unfold _extract_evaluation; cbn [info_score].
  apply Z.gtb_lt in H. now rewrite H.
Qed.

Lemma extract_mate_unfavourable (n : Z) :
  (n <= 0)%Z ->
  _extract_evaluation (raw (Some (Mate n)))
  = Some (inject_Z (Z.max (-99) (-1000 + n))).
Proof.
  intro H. unfold _extract_evaluation; cbn [info_score].
  destruct (n >? 0)%Z eqn:E; [|reflexivity].
  apply Z.gtb_lt in E. lia.
Qed.

(** A mate score is normalised to an integer. *)
Lemma extract_mate_integer (n : Z) :
  exists v : Z,
    _extract_evaluation (raw (Some (Mate n))) = Some (inject_Z v)
    /\ ((0 < n)%Z -> v = Z.min 99 (1000 - n))
    /\ ((n <= 0)%Z -> v = (-99)%Z).
Proof.
  destruct (Z_lt_le_dec 0 n) as [E|E].
  - exists (Z.min 99 (1000 - n)). split; [now apply extract_mate_favourable|].
    split; [reflexivity | lia].
  - exists (Z.max (-99) (-1000 + n)). split; [now apply extract_mate_unfavourable|].
    split; lia.
Qed.

(** Read with [d] the number of moves of a mate against the side to move
    (the oracle reports [- d]), the lower formula gives the same value for
    every distance up to 901. *)
Lemma extract_mate_against (d : Z) :
  (0 <= d <= 901)%Z ->
  _extract_evaluation (raw (Some (Mate (- d))))
  = Some (inject_Z (Z.max (-99) (-1000 + d))).
Proof.
  intro H. rewrite extract_mate_unfavourable by lia. do 2 f_equal. lia.
Qed.

(** C2.  [_extract_evaluation] by cases.  [n] is the signed mate distance
    the oracle reports: positive when the side to move mates, zero or
    negative when it is being mated.  A favourable mate gives
    [min(99, 1000 - n)], an unfavourable one [max(-99, -1000 + n)], a
    centipawn score [c] gives [c / 100] unclamped, and an update without a
    score gives [None]. *)
Theorem extract_evaluation_cases (n c : Z) :
  ((0 < n)%Z ->
     _extract_evaluation (raw (Some (Mate n)))
     = Some (inject_Z (Z.min 99 (1000 - n))))
  /\ ((n <= 0)%Z ->
     _extract_evaluation (raw (Some (Mate n)))
     = Some (inject_Z (Z.max (-99) (-1000 + n))))
  /\ _extract_evaluation (raw (Some (Cp c))) = Some (inject_Z c / 100)
  /\ _extract_evaluation (raw None) = None.
Proof.
  split; [apply extract_mate_favourable|].
  split; [apply extract_mate_unfavourable|].
  split; reflexivity.
Qed.

(** C5, as amended.  A normalised score lies in [[-99, 99]] when it comes
    from a mate of distance at most 1099 or from a centipawn score of
    magnitude at most 9900; a centipawn score beyond 9900 is not clamped
    and leaves the interval. *)
Theorem extract_evaluation_bounds (score : Score) (q : Q) :
  _extract_evaluation (raw (Some score)) = Some q ->
  (within_caps score -> -99 <= q /\ q <= 99)
  /\ (forall c, score = Cp c -> ~ within_caps score -> ~ (-99 <= q /\ q <= 99)).
Proof.
  intro H. split.
  - intro W. destruct score as [c|n]; cbn [within_caps] in W.
    + assert (Hq : inject_Z c / 100 = q) by (cbv [_extract_evaluation info_score] in H; congruence).
      rewrite <- Hq. split.
      * apply (pawns_ge c (-99)). lia.
      * apply (pawns_le c 99). lia.
    + destruct (extract_mate_integer n) as (v & Hv & Hpos & Hneg).
      assert (Hq : inject_Z v = q) by congruence.
      rewrite <- Hq.
      change (-99) with (inject_Z (-99)). change 99 with (inject_Z 99).
      rewrite <- !Zle_Qle.
      destruct (Z_lt_le_dec 0 n) as [E|E];
        [rewrite (Hpos E) | rewrite (Hneg E)]; lia.
  - intros c -> W [Hlo Hhi]. cbn [within_caps] in W.
    assert (Hq : inject_Z c / 100 = q) by (cbv [_extract_evaluation info_score] in H; congruence).
    rewrite <- Hq in Hlo, Hhi.
    apply -> (pawns_ge c (-99)) in Hlo. apply -> (pawns_le c 99) in Hhi. lia.
Qed.

(** C8, as amended.  For mate distances of equal sign and at most 1000 moves
    the closer mate never maps to a smaller magnitude; the order is weak,
    and any two mates of at most 901 moves map to the same magnitude. *)
Theorem mate_magnitude_weakly_monotonic (n m : Z) :
  Z.sgn n = Z.sgn m -> (0 < Z.abs n <= Z.abs m)%Z -> (Z.abs m <= 1000)%Z ->
  exists vn vm,
    _extract_evaluation (raw (Some (Mate n))) = Some vn
    /\ _extract_evaluation (raw (Some (Mate m))) = Some vm
    /\ Qabs vm <= Qabs vn
    /\ ((Z.abs m <= 901)%Z -> Qabs vm = 99 /\ Qabs vn = 99).
Proof.
  intros Hs Hnm Hm.
  destruct (extract_mate_integer n) as (vn & Hvn & Hn1 & Hn2).
  destruct (extract_mate_integer m) as (vm & Hvm & Hm1 & Hm2).
  exists (inject_Z vn), (inject_Z vm).
  split; [exact Hvn|]. split; [exact Hvm|].
  rewrite !Qabs_inject_Z.
  destruct (Z_lt_le_dec 0 n) as [En|En]; destruct (Z_lt_le_dec 0 m) as [Em|Em];
    try (exfalso; lia);
    [rewrite (Hn1 En), (Hm1 Em) | rewrite (Hn2 En), (Hm2 Em)];
    (split; [rewrite <- Zle_Qle; lia|]);
    intro; split; change 99 with (inject_Z 99); f_equal; lia.
Qed.

End Normalizer.

(** The witness of C2: a mate in three either way, a pawn up, no score. *)
Lemma extract_evaluation_cases_witness :
  _extract_evaluation (@mkInfo string None None (Some (Mate 3))) = Some 99
  /\ _extract_evaluation (@mkInfo string None None (Some (Mate (-3)))) = Some (-99)
  /\ _extract_evaluation (@mkInfo string None None (Some (Cp 100))) = Some (100 / 100)
  /\ _extract_evaluation (@mkInfo string None None None) = None.
Proof.
  destruct (@extract_evaluation_cases string None None 3 100) as (Hpos & _ & Hcp & Hnone).
  destruct (@extract_evaluation_cases string None None (-3) 100) as (_ & Hneg & _).
  split; [apply Hpos; lia|]. split; [apply Hneg; lia|]. split; assumption.
Defined.

(** C5, the counterexample: a score of 10000 centipawns is normalised to
    100 pawns, above the cap. *)
Lemma extract_evaluation_exceeds_cap :
  exists q,
    _extract_evaluation (@mkInfo string None None (Some (Cp 10000))) = Some q
    /\ ~ (-99 <= q /\ q <= 99).
Proof.
  exists (inject_Z 10000 / 100). split; [reflexivity|].
  intros [_ H]. apply -> (pawns_le 10000 99) in H. lia.
Qed.

(** The witness of C5: a mate in three and a pawn up are within the caps. *)
Lemma extract_evaluation_bounds_witness :
  (-99 <= 99 /\ 99 <= 99) /\ (-99 <= 100 / 100 /\ 100 / 100 <= 99).
Proof.
  split.
  - apply (@extract_evaluation_bounds string None None (Mate 3) 99 eq_refl).
    simpl. lia.
  - apply (@extract_evaluation_bounds string None None (Cp 100) (100 / 100) eq_refl).
    simpl. lia.
Defined.

(** C8, the counterexample: mate in one and mate in five both map to 99,
    so the magnitude of the first is not strictly larger. *)
Lemma mate_in_1_equals_mate_in_5 :
  _extract_evaluation (@mkInfo string None None (Some (Mate 1))) = Some 99
  /\ _extract_evaluation (@mkInfo string None None (Some (Mate 5))) = Some 99
  /\ _extract_evaluation (@mkInfo string None None (Some (Mate (-1)))) = Some (-99)
  /\ _extract_evaluation (@mkInfo string None None (Some (Mate (-5)))) = Some (-99)
  /\ ~ (Qabs 99 < Qabs 99)
  /\ ~ (Qabs (-99) < Qabs (-99)).
Proof.
  repeat split; try reflexivity; apply Qlt_irrefl.
Qed.

(** The witness of C8: mate in one against mate in five. *)
Lemma mate_magnitude_weakly_monotonic_witness :
  exists v1 v5,
    _extract_evaluation (@mkInfo string None None (Some (Mate 1))) = Some v1
    /\ _extract_evaluation (@mkInfo string None None (Some (Mate 5))) = Some v5
    /\ Qabs v5 <= Qabs v1
    /\ ((Z.abs 5 <= 901)%Z -> Qabs v5 = 99 /\ Qabs v1 = 99).
Proof.
  apply (@mate_magnitude_weakly_monotonic string None None 1 5);
    [reflexivity | simpl; lia | simpl; lia].
Defined.

(** ** The time allocator *)

Lemma ply_time_limit_quick (ply_index : Z) (eval_before : option Q) :
  ply_time_limit ply_index eval_before = QUICK_ANALYSIS_TIME
  <-> (ply_index + 1 < QUICK_ANALYSIS_PLY)%Z \/ decided eval_before = true.
Proof.
  unfold ply_time_limit.
  destruct (ply_index + 1 <? QUICK_ANALYSIS_PLY)%Z eqn:E.
  - apply Z.ltb_lt in E. tauto.
  - apply Z.ltb_ge in E. destruct (decided eval_before).
    + tauto.
    + split; [discriminate|]. intros [H|H]; [lia | discriminate].
Qed.

Lemma ply_time_limit_deep (ply_index : Z) (eval_before : option Q) :
  ply_time_limit ply_index eval_before = TIME_LIMIT
  <-> (QUICK_ANALYSIS_PLY <= ply_index + 1)%Z /\ decided eval_before = false.
Proof.
  unfold ply_time_limit.
  destruct (ply_index + 1 <? QUICK_ANALYSIS_PLY)%Z eqn:E.
  - apply Z.ltb_lt in E. split; [discriminate | lia].
  - apply Z.ltb_ge in E. destruct (decided eval_before).
    + split; [discriminate | intros [_ H]; discriminate].
    + tauto.
Qed.

Lemma decided_iff (eval_before : option Q) :
  decided eval_before = true
  <-> exists e, eval_before = Some e /\ GAME_OVER_EVAL_THRESHOLD < Qabs e.
Proof.
  destruct eval_before as [e|]; simpl.
  - unfold Qgtb. rewrite Qltb_lt. split.
    + intro H. now exists e.
    + now intros (e' & [= <-] & H).
  - split; [discriminate | now intros (e & [=] & _)].
Qed.

(** Ply index 0 gets the quick budget whatever the evaluation. *)
Lemma ply_time_limit_first_ply (eval_before : option Q) :
  ply_time_limit 0 eval_before = QUICK_ANALYSIS_TIME.
Proof. reflexivity. Qed.

(** C3.  The code at ply index 49 with a level evaluation: the index is
    below the quick-ply threshold of 50, the position is not decided, and
    the budget granted is the deep one, not the quick one. *)
Theorem ply_49_gets_deep_budget :
  (49 < QUICK_ANALYSIS_PLY)%Z
  /\ decided (Some 0) = false
  /\ ply_time_limit 49 (Some 0) = TIME_LIMIT
  /\ ply_time_limit 49 None = TIME_LIMIT
  /\ ~ TIME_LIMIT == QUICK_ANALYSIS_TIME.
Proof.
  repeat split; discriminate.
Qed.

(** ** The engine guard *)

Section Guard.

Context {Move : Type} (Move_eq_dec : forall a b : Move, {a = b} + {a <> b}).
Context {Board : Type} (rules : @Rules Move Board).

(** C9.  On an analyzer whose engine has not been started, the full-game
    analysis, the single-position analysis and the deep single-move
    analysis all raise the "Engine not initialized" [RuntimeError]; none of
    them returns a result, so no move record and no verdict with an absent
    score is produced. *)
Theorem analysis_requires_engine
    (self : GameAnalyzer) (game : Game) (request : nat) (board : Board)
    (time_limit duration_seconds : Q) (actual_move : option Move) :
  engine self = None ->
  analyze_game Move_eq_dec rules self game = Raise engine_not_initialized
  /\ analyze_position Move_eq_dec self request board time_limit
     = Raise engine_not_initialized
  /\ analyze_specific_move Move_eq_dec rules self board duration_seconds actual_move
     = Raise engine_not_initialized
  /\ (forall records, analyze_game Move_eq_dec rules self game <> Ok records)
  /\ (forall verdict,
        analyze_position Move_eq_dec self request board time_limit <> Ok verdict)
  /\ (forall report,
        analyze_specific_move Move_eq_dec rules self board duration_seconds actual_move
        <> Ok report).
Proof.
  intro H.
  unfold analyze_game, analyze_position, analyze_specific_move.
  rewrite H. repeat split; intros ? ?; discriminate.
Qed.

(** Once the engine is there, a position analysis always returns a
    verdict: an absent score is a normal result, not an error. *)
Lemma analyze_position_returns
    (self : GameAnalyzer) (eng : Engine) (request : nat) (board : Board)
    (time_limit : Q) :
  engine self = Some eng ->
  exists verdict,
    analyze_position Move_eq_dec self request board time_limit = Ok verdict.
Proof.
  intro H. unfold analyze_position. rewrite H.
  destruct (_ && _); eexists; reflexivity.
Qed.

End Guard.

(** The witness of C9: a freshly constructed analyzer. *)
Lemma analysis_requires_engine_witness :
  let self := @GameAnalyzer_init Sample.Move Sample.Board "/usr/bin/stockfish" in
  analyze_game string_dec Sample.rules self Sample.game
    = Raise engine_not_initialized
  /\ analyze_position string_dec self 0 [] TIME_LIMIT
     = Raise engine_not_initialized
  /\ analyze_specific_move string_dec Sample.rules self [] 240 None
     = Raise engine_not_initialized
  /\ (forall records, analyze_game string_dec Sample.rules self Sample.game <> Ok records)
  /\ (forall verdict, analyze_position string_dec self 0 [] TIME_LIMIT <> Ok verdict)
  /\ (forall report,
        analyze_specific_move string_dec Sample.rules self [] 240 None <> Ok report).
Proof.
  exact (analysis_requires_engine string_dec Sample.rules
           (GameAnalyzer_init "/usr/bin/stockfish") Sample.game 0 [] TIME_LIMIT 240 None
           eq_refl).
Defined.

(** ** The convergence loop *)

Section Convergence.

Context {Move : Type} (Move_eq_dec : forall a b : Move, {a = b} + {a <> b}).

Lemma move_differs_false (m : Move) (last : option Move) :
  move_differs Move_eq_dec m last = false <-> last = Some m.
Proof.
  destruct last as [m'|]; simpl; [|split; discriminate].
  destruct (Move_eq_dec m m') as [->|N]; split; try reflexivity; try discriminate.
  intros [= E]. congruence.
Qed.

Lemma move_differs_true (m : Move) (last : option Move) :
  move_differs Move_eq_dec m last = true <-> last <> Some m.
Proof.
  rewrite <- move_differs_false. destruct (move_differs _ _ _); split; congruence.
Qed.

(** An update without a variation leaves the locals alone. *)
Lemma stability_step_skips (st : StabilityState) (u : Update) :
  leading u = None -> stability_step Move_eq_dec st u = Next st.
Proof.
  unfold leading, stability_step.
  destruct (info_pv (upd_info u)) as [[|m pv]|]; intro H;
    try reflexivity; discriminate.
Qed.

(** A new leading move replaces the tracked verdict and restarts the
    quiet period. *)
Lemma stability_step_change (st : StabilityState) (u : Update) (m : Move) :
  leading u = Some m -> last_best_move st <> Some m ->
  stability_step Move_eq_dec st u
  = Next {| last_best_move := Some m;
            last_change_time := upd_clock u;
            best_pv := info_pv (upd_info u);
            best_eval := _extract_evaluation (upd_info u);
            last_depth := match info_depth (upd_info u) with
                          | Some d => d | None => 0%Z end |}.
Proof.
  unfold leading, stability_step.
  destruct (info_pv (upd_info u)) as [[|m' pv]|]; intros H N; try discriminate.
  injection H as ->.
  apply move_differs_true in N. now rewrite N.
Qed.

(** The same leading move before the quiet period is over: a refinement.
    Score and variation are replaced, the time of the last change stays. *)
Lemma stability_step_refinement (st : StabilityState) (u : Update) (m : Move) :
  leading u = Some m -> last_best_move st = Some m ->
  upd_clock u - last_change_time st < STABILITY_THRESHOLD ->
  stability_step Move_eq_dec st u
  = Next {| last_best_move := last_best_move st;
            last_change_time := last_change_time st;
            best_pv := info_pv (upd_info u);
            best_eval := _extract_evaluation (upd_info u);
            last_depth := match info_depth (upd_info u) with
                          | Some d => d | None => 0%Z end |}.
Proof.
  unfold leading, stability_step.
  destruct (info_pv (upd_info u)) as [[|m' pv]|]; intros H E T; try discriminate.
  injection H as ->.
  apply move_differs_false in E. rewrite E.
  apply Qltb_lt in T. unfold Qltb in T. apply negb_true_iff in T.
  unfold Qgeb. now rewrite T.
Qed.

(** The same leading move once the quiet period is over: the loop is left
    with the locals as they were, so the score and the variation of this
    update are not taken. *)
Lemma stability_step_stop (st : StabilityState) (u : Update) (m : Move) :
  leading u = Some m -> last_best_move st = Some m ->
  STABILITY_THRESHOLD <= upd_clock u - last_change_time st ->
  stability_step Move_eq_dec st u = Break st.
Proof.
  unfold leading, stability_step.
  destruct (info_pv (upd_info u)) as [[|m' pv]|]; intros H E T; try discriminate.
  injection H as ->.
  apply move_differs_false in E. rewrite E.
  apply Qgeb_ge in T. now rewrite T.
Qed.

(** The loop over a stream whose leading moves alternate, started from
    locals that do not track the first of them. *)
Lemma run_loop_alternates (a b : Move) (updates : list Update) :
  a <> b -> alternates a b updates ->
  forall (st : StabilityState) (taken : nat),
    last_best_move st <> Some a ->
    let done := run_loop (stability_step Move_eq_dec) st taken updates in
    loop_broke done = false
    /\ loop_taken done = (taken + List.length updates)%nat.
Proof.
  intro N. revert a b N.
  induction updates as [|u rest IH]; intros a b N A st taken L; simpl.
  - split; [reflexivity | lia].
  - destruct A as [Ha A].
    rewrite (stability_step_change st u a Ha L).
    destruct (IH b a (not_eq_sym N) A
                {| last_best_move := Some a;
                   last_change_time := upd_clock u;
                   best_pv := info_pv (upd_info u);
                   best_eval := _extract_evaluation (upd_info u);
                   last_depth := match info_depth (upd_info u) with
                                 | Some d => d | None => 0%Z end |}
                (S taken)) as [B T].
    + simpl. congruence.
    + split; [exact B | rewrite T; lia].
Qed.

Lemma alternates_firstn (a b : Move) (updates : list Update) (k : nat) :
  alternates a b updates -> alternates a b (firstn k updates).
Proof.
  revert a b k. induction updates as [|u rest IH]; intros a b [|k] A; simpl; auto.
  destruct A as [Ha A]. split; [exact Ha | now apply IH].
Qed.

(** C7.  In stability mode, over a stream whose leading moves alternate
    between two distinct moves with at most half the quiet period between
    consecutive updates, the loop is never left by the stability [break]:
    after any number of updates it is still running, and it takes every
    update of the stream.  (The spacing is not used: whatever the spacing,
    each update changes the best move and restarts the quiet period.) *)
Theorem alternation_never_converges
    (a b : Move) (start_time : Q) (updates : list Update) :
  a <> b ->
  alternates a b updates ->
  spaced (STABILITY_THRESHOLD / 2) updates ->
  (forall k, loop_broke (stability_loop Move_eq_dec start_time (firstn k updates)) = false)
  /\ loop_taken (stability_loop Move_eq_dec start_time updates) = List.length updates.
Proof.
  intros N A _. split.
  - intro k.
    apply (run_loop_alternates a b (firstn k updates) N
             (alternates_firstn a b updates k A)
             (stability_start start_time) 0).
    discriminate.
  - apply (run_loop_alternates a b updates N A (stability_start start_time) 0).
    discriminate.
Qed.

End Convergence.

(** The witness of C7: a stream that wavers between 1. e4 and 1. d4 every
    five seconds. *)
Lemma alternation_never_converges_witness :
  (forall k, loop_broke (stability_loop string_dec 0 (firstn k Sample.wavering)) = false)
  /\ loop_taken (stability_loop string_dec 0 Sample.wavering) = 4%nat.
Proof.
  apply (alternation_never_converges string_dec "e2e4"%string "d2d4"%string 0 Sample.wavering).
  - discriminate.
  - simpl. repeat split.
  - simpl. repeat split; discriminate.
Defined.

(** C6.  The code on a search that keeps 1. e4 on top: the second update
    arrives in the tracking state with the same leading move, ten seconds
    after the first, carrying the score 0.35 and a longer variation.  The
    loop stops on it without taking its score and variation: the verdict
    is the one of the first update (0.20).  The deep analyzer, on the same
    stream, reports the second update's values. *)
Theorem converging_refinement_is_dropped :
  let done := stability_loop string_dec 0 Sample.steady in
  map leading Sample.steady = [Some "e2e4"%string; Some "e2e4"%string]
  /\ loop_broke done = true
  /\ loop_taken done = 2%nat
  /\ best_eval (loop_state done) = Some (20 # 100)
  /\ best_pv (loop_state done) = Some ["e2e4"%string]
  /\ analyze_position string_dec (Sample.analyzer Sample.steady) 0 [] TIME_LIMIT
     = Ok {| best_move := Some "e2e4"%string;
             evaluation := Some (20 # 100);
             principal_variation := ["e2e4"%string];
             time_taken := 10 - 0 |}
  /\ analyze_specific_move string_dec Sample.rules
       (Sample.analyzer Sample.steady) [] 240 None
     = Ok {| report_variation := ["e2e4"%string; "e7e5"%string];
             report_eval := Some (35 # 100);
             report_advantage := None;
             report_elapsed := 10 - 0 |}.
Proof.
  repeat split.
Qed.

(** ** Sorting *)

Section SortFacts.

Context {A : Type} (key : A -> option Q).

Lemma sort_insert_perm (x : A) (l : list A) :
  Permutation (sort_insert key x l) (x :: l).
Proof.
  induction l as [|y l IH]; simpl; [reflexivity|].
  destruct (key_lt key y x); [|reflexivity].
  rewrite IH. apply perm_swap.
Qed.

Lemma list_sort_perm (l : list A) : Permutation (list_sort key l) l.
Proof.
  induction l as [|x l IH]; simpl; [reflexivity|].
  rewrite sort_insert_perm. now constructor.
Qed.

Lemma key_lt_le (a b : A) : key_lt key a b = true -> key_le key a b.
Proof.
  unfold key_lt, key_le.
  destruct (key a) as [x|], (key b) as [y|]; try discriminate.
  intro H. apply Qltb_lt in H. exists x, y. auto using Qlt_le_weak.
Qed.

Lemma key_lt_ge (a b : A) :
  key a <> None -> key b <> None -> key_lt key a b = false -> key_le key b a.
Proof.
  unfold key_lt, key_le.
  destruct (key a) as [x|], (key b) as [y|]; try congruence.
  intros _ _ H. apply Qltb_ge in H. now exists y, x.
Qed.

Lemma key_le_trans (a b c : A) : key_le key a b -> key_le key b c -> key_le key a c.
Proof.
  intros (x & y & Ha & Hb & Hxy) (y' & z & Hb' & Hc & Hyz).
  rewrite Hb in Hb'. injection Hb' as <-.
  exists x, z. eauto using Qle_trans.
Qed.

Lemma sort_insert_sorted (x : A) (l : list A) :
  key x <> None -> Forall (fun a => key a <> None) l ->
  StronglySorted (key_le key) l ->
  StronglySorted (key_le key) (sort_insert key x l).
Proof.
  intros Hx Hl Hs. induction Hs as [|y l Hs IH Hy]; simpl.
  - repeat constructor.
  - inversion Hl as [|? ? Ky Kl]; subst.
    destruct (key_lt key y x) eqn:E.
    + constructor; [now apply IH|].
      rewrite (sort_insert_perm x l). constructor; [now apply key_lt_le | exact Hy].
    + assert (Hxy : key_le key x y) by now apply key_lt_ge.
      constructor; [now constructor|].
      constructor; [exact Hxy|].
      eapply Forall_impl; [|exact Hy].
      intros z Hz. eapply key_le_trans; eassumption.
Qed.

Lemma list_sort_sorted (l : list A) :
  Forall (fun a => key a <> None) l -> StronglySorted (key_le key) (list_sort key l).
Proof.
  induction 1 as [|x l Hx Hl IH]; simpl; [constructor|].
  apply sort_insert_sorted; [exact Hx | | exact IH].
  now rewrite (list_sort_perm l).
Qed.

(** Stability: the elements of one key keep their order. *)
Lemma sort_insert_stable (k : Q) (x : A) (l : list A) :
  filter (key_is key k) (sort_insert key x l) = filter (key_is key k) (x :: l).
Proof.
  induction l as [|y l IH]; [reflexivity|].
  cbn [sort_insert]. destruct (key_lt key y x) eqn:E; [|reflexivity].
  cbn [filter] in *. rewrite IH.
  destruct (key_is key k x) eqn:Px; [|reflexivity].
  assert (Py : key_is key k y = false); [|now rewrite Py].
  unfold key_is, key_lt in *.
  destruct (key y) as [ky|]; [|reflexivity].
  destruct (key x) as [kx|]; [|discriminate].
  apply Qltb_lt in E. apply Qeq_bool_iff in Px.
  destruct (Qeq_bool ky k) eqn:Q; [|reflexivity].
  apply Qeq_bool_iff in Q. rewrite Px, Q in E. now apply Qlt_irrefl in E.
Qed.

Lemma list_sort_stable (k : Q) (l : list A) :
  filter (key_is key k) (list_sort key l) = filter (key_is key k) l.
Proof.
  induction l as [|x l IH]; [reflexivity|].
  cbn [list_sort]. rewrite sort_insert_stable. cbn [filter]. now rewrite IH.
Qed.

Lemma firstn_sorted (R : A -> A -> Prop) (n : nat) (l : list A) :
  StronglySorted R l -> StronglySorted R (firstn n l).
Proof.
  intro H. revert n. induction H as [|x l Hs IH Hx]; intros [|n]; simpl;
    try constructor; auto.
  apply Forall_forall. intros y Hy. rewrite Forall_forall in Hx.
  apply Hx. rewrite <- (firstn_skipn n l). apply in_or_app. now left.
Qed.

Lemma firstn_filter_prefix (p : A -> bool) (n : nat) (l : list A) :
  filter p l = filter p (firstn n l) ++ filter p (skipn n l).
Proof.
  now rewrite <- filter_app, firstn_skipn.
Qed.

Lemma filter_twice (p q : A -> bool) (l : list A) :
  filter q (filter p l) = filter (fun a => p a && q a) l.
Proof.
  induction l as [|x l IH]; [reflexivity|]. simpl.
  destruct (p x); simpl; [destruct (q x)|]; now rewrite IH.
Qed.

(** A sorted arrangement that keeps the elements of each key in the same
    order as another sorted arrangement is that arrangement: the outcome of
    a stable sort does not depend on the algorithm. *)
Lemma stable_sorted_unique (s1 s2 : list A) :
  Forall (fun a => key a <> None) s1 -> Forall (fun a => key a <> None) s2 ->
  StronglySorted (key_le key) s1 -> StronglySorted (key_le key) s2 ->
  (forall k, filter (key_is key k) s1 = filter (key_is key k) s2) ->
  s1 = s2.
Proof.
  intros K1. revert s2.
  induction K1 as [|x s1 Kx K1 IH]; intros s2 K2 S1 S2 F.
  - destruct s2 as [|y s2]; [reflexivity|]. exfalso.
    inversion K2 as [|? ? Ky _]; subst.
    destruct (key y) as [ky|] eqn:E; [|congruence].
    specialize (F ky). cbn [filter] in F. unfold key_is in F at 1.
    rewrite E in F. rewrite (proj2 (Qeq_bool_iff ky ky) (Qeq_refl ky)) in F.
    discriminate.
  - destruct (key x) as [kx|] eqn:Ex; [|congruence].
    assert (Tx : key_is key kx x = true).
    { unfold key_is. rewrite Ex. apply Qeq_bool_iff, Qeq_refl. }
    pose proof (F kx) as Fx. cbn [filter] in Fx. rewrite Tx in Fx.
    destruct s2 as [|y s2]; [discriminate|].
    inversion K2 as [|? ? Ky K2']; subst.
    inversion S1 as [|? ? S1' Hx]; subst.
    inversion S2 as [|? ? S2' Hy]; subst.
    destruct (key y) as [ky|] eqn:Ey; [|congruence].
    assert (Ty : key_is key ky y = true).
    { unfold key_is. rewrite Ey. apply Qeq_bool_iff, Qeq_refl. }
    assert (Lyx : ky <= kx).
    { assert (I : In x (y :: s2)).
      { eapply (proj1 (filter_In _ _ _)). rewrite <- Fx. now left. }
      destruct I as [<-|I].
      - rewrite Ex in Ey. injection Ey as <-. apply Qle_refl.
      - rewrite Forall_forall in Hy. destruct (Hy x I) as (a & b & Ha & Hb & L).
        congruence. }
    assert (Lxy : kx <= ky).
    { pose proof (F ky) as Fy. cbn [filter] in Fy. rewrite Ty in Fy.
      assert (I : In y (x :: s1)).
      { destruct (key_is key ky x).
        - injection Fy as -> _. now left.
        - right. eapply (proj1 (filter_In _ _ _)). rewrite Fy. now left. }
      destruct I as [->|I].
      - rewrite Ex in Ey. injection Ey as <-. apply Qle_refl.
      - rewrite Forall_forall in Hx. destruct (Hx y I) as (a & b & Ha & Hb & L).
        congruence. }
    assert (Tyx : key_is key kx y = true).
    { unfold key_is. rewrite Ey. apply Qeq_bool_iff. now apply Qle_antisym. }
    cbn [filter] in Fx. rewrite Tyx in Fx. injection Fx as <- _.
    f_equal. apply IH; try assumption.
    intro k. specialize (F k). cbn [filter] in F.
    destruct (key_is key k x); [now injection F | exact F].
Qed.

(** So any stable sort of [l], however it is computed, returns what
    [list_sort] returns. *)
Lemma list_sort_is_the_stable_sort (l s : list A) :
  Forall (fun a => key a <> None) l ->
  Permutation s l ->
  StronglySorted (key_le key) s ->
  (forall k, filter (key_is key k) s = filter (key_is key k) l) ->
  s = list_sort key l.
Proof.
  intros K P S F. apply stable_sorted_unique.
  - now rewrite P.
  - now rewrite (list_sort_perm l).
  - exact S.
  - now apply list_sort_sorted.
  - intro k. now rewrite list_sort_stable.
Qed.

End SortFacts.

Lemma firstn_incl {A : Type} (n : nat) (l : list A) : incl (firstn n l) l.
Proof.
  intros x H. rewrite <- (firstn_skipn n l). apply in_or_app. now left.
Qed.

(** ** The worst-move selector *)

Section Selector.

Context {Move : Type}.
Implicit Types (m : @MoveRecord Move) (analysis : list (@MoveRecord Move)).

Lemma has_valid_change_iff m :
  has_valid_change m = true <-> eval_change m <> None /\ ~ was_decided m.
Proof.
  unfold has_valid_change, was_decided.
  destruct (eval_change m) as [c|].
  - destruct (eval_before m) as [e|].
    + rewrite Qle_bool_iff. split.
      * intro H. split; [discriminate|].
        intros (e' & [= <-] & L). now apply Qlt_not_le in L.
      * intros [_ N]. apply Qnot_lt_le. intro L. apply N. now exists e.
    + split; [|reflexivity]. intros _. split; [discriminate|].
      now intros (e & [=] & _).
  - split; [discriminate | now intros [N _]].
Qed.

(** The records that survive the filter, in ascending order of swing. *)
Lemma ranked_records analysis :
  let ranked := list_sort eval_change (filter has_valid_change analysis) in
  Permutation ranked (filter has_valid_change analysis)
  /\ StronglySorted swing_le ranked.
Proof.
  split; [apply list_sort_perm|].
  apply list_sort_sorted, Forall_forall. intros m H.
  apply filter_In in H. destruct H as [_ H].
  now apply has_valid_change_iff in H.
Qed.

(** C4.  The output of [find_worst_moves]: every record has a swing; none
    has a pre-move evaluation whose magnitude exceeds the decided
    threshold; the records are in ascending order of swing; for each swing
    value the output lists the records of that swing in the order in which
    the input has them, starting from the first; and there are at most
    [TOP_N] records.  The output is drawn from the input, and a record with
    a swing but no pre-move evaluation is not excluded: it is in the output
    whenever the input has no more than [TOP_N] records. *)
Theorem find_worst_moves_ranked analysis :
  let worst := find_worst_moves analysis in
  Forall (fun m => eval_change m <> None) worst
  /\ Forall (fun m => ~ was_decided m) worst
  /\ StronglySorted swing_le worst
  /\ (forall k, exists later,
        filter (fun m => has_valid_change m && swing_is k m) analysis
        = filter (swing_is k) worst ++ later)
  /\ (List.length worst <= TOP_N)%nat
  /\ incl worst analysis
  /\ (forall m, In m analysis -> eval_change m <> None -> eval_before m = None ->
        (List.length analysis <= TOP_N)%nat -> In m worst).
Proof.
  destruct (ranked_records analysis) as [P S].
  set (kept := filter has_valid_change analysis) in *.
  set (ranked := list_sort eval_change kept) in *.
  assert (V : forall m, In m ranked -> In m analysis /\ has_valid_change m = true).
  { intros m H. apply filter_In. fold kept. now rewrite <- P. }
  change (find_worst_moves analysis) with (firstn TOP_N ranked). cbv zeta.
  repeat split.
  - apply Forall_forall. intros m H. apply firstn_incl, V in H.
    destruct H as [_ H]. now apply has_valid_change_iff in H.
  - apply Forall_forall. intros m H. apply firstn_incl, V in H.
    destruct H as [_ H]. now apply has_valid_change_iff in H.
  - now apply firstn_sorted.
  - intro k. exists (filter (swing_is k) (skipn TOP_N ranked)).
    rewrite <- firstn_filter_prefix, <- filter_twice. fold kept.
    symmetry. apply list_sort_stable.
  - apply firstn_le_length.
  - intros m H. now apply firstn_incl, V in H.
  - intros m I C B L.
    assert (K : In m kept).
    { apply filter_In. split; [exact I|].
      apply has_valid_change_iff. split; [exact C|].
      intros (e & E & _). congruence. }
    rewrite firstn_all2.
    + now rewrite P.
    + rewrite (Permutation_length P). unfold kept.
      pose proof (filter_length_le has_valid_change analysis). lia.
Qed.

End Selector.

(** On the sample game: ply 1 has no swing and ply 2 starts from a decided
    position, so both are left out; ply 3 has no pre-move evaluation and
    stays; plies 3 and 4 tie at -2 and keep their order. *)
Example find_worst_moves_sample :
  map ply_index (find_worst_moves Sample.analysis) = [3; 4; 0; 5]%Z.
Proof. reflexivity. Qed.

(** ** The store *)

Section StoreFacts.

Context {Move : Type}.
Implicit Types (s : @Store Move) (record : @MoveRecord Move).

(** [r] refers to the dictionary [record] in [s]. *)
Local Abbreviation holds s := (fun (r : Ref) record => nth_error s r = Some (DictObject record)).

Lemma holds_grows s (more : @Store Move) (r : Ref) record :
  holds s r record -> holds (s ++ more) r record.
Proof.
  cbv beta. intro H. rewrite nth_error_app1; [exact H|].
  apply nth_error_Some. congruence.
Qed.

Lemma read_dicts_holds s (items : list Ref) (records : list (@MoveRecord Move)) :
  read_dicts s items = Ok records <-> Forall2 (holds s) items records.
Proof.
  revert records. induction items as [|r items IH]; intro records; simpl.
  - split.
    + intros [= <-]. constructor.
    + intro H. now inversion H.
  - unfold read_dict.
    destruct (nth_error s r) as [[l|record]|] eqn:E; simpl;
      try (split; [discriminate | intro H; inversion H; congruence]).
    destruct (read_dicts s items) as [records'|e] eqn:D; simpl.
    + split.
      * intros [= <-]. constructor; [exact E | now apply IH].
      * intro H. inversion H as [|? rec' ? recs' Hr Hrest]; subst.
        apply IH in Hrest. congruence.
    + split; [discriminate|].
      intro H. inversion H as [|? rec' ? recs' Hr Hrest]; subst.
      apply IH in Hrest. discriminate.
Qed.

Section Related.

Variables (R : Ref -> @MoveRecord Move -> Prop).

Lemma related_filter (p : Ref -> bool) (q : @MoveRecord Move -> bool)
    (items : list Ref) (records : list (@MoveRecord Move)) :
  (forall r record, R r record -> p r = q record) ->
  Forall2 R items records -> Forall2 R (filter p items) (filter q records).
Proof.
  intros Hpq H. induction H as [|r record items records Hr H IH]; simpl.
  - constructor.
  - rewrite (Hpq r record Hr). destruct (q record); [constructor|]; assumption.
Qed.

Lemma related_insert (k1 : Ref -> option Q) (k2 : @MoveRecord Move -> option Q)
    (r : Ref) (record : @MoveRecord Move)
    (items : list Ref) (records : list (@MoveRecord Move)) :
  (forall r record, R r record -> k1 r = k2 record) ->
  R r record -> Forall2 R items records ->
  Forall2 R (sort_insert k1 r items) (sort_insert k2 record records).
Proof.
  intros Hk Hr H. induction H as [|r' record' items records Hr' H IH]; simpl.
  - repeat constructor. exact Hr.
  - unfold key_lt. rewrite (Hk r record Hr), (Hk r' record' Hr').
    fold (key_lt k2 record' record).
    destruct (key_lt k2 record' record); repeat constructor; assumption.
Qed.

Lemma related_sort (k1 : Ref -> option Q) (k2 : @MoveRecord Move -> option Q)
    (items : list Ref) (records : list (@MoveRecord Move)) :
  (forall r record, R r record -> k1 r = k2 record) ->
  Forall2 R items records ->
  Forall2 R (list_sort k1 items) (list_sort k2 records).
Proof.
  intros Hk H. induction H as [|r record items records Hr H IH]; simpl.
  - constructor.
  - now apply related_insert.
Qed.

Lemma related_firstn (n : nat) (items : list Ref) (records : list (@MoveRecord Move)) :
  Forall2 R items records -> Forall2 R (firstn n items) (firstn n records).
Proof.
  intro H. revert n. induction H; intros [|n]; simpl; constructor; auto.
Qed.

End Related.

Lemma store_write_last s (old new : @Object Move) :
  store_write (s ++ [old]) (List.length s) new = s ++ [new].
Proof.
  induction s as [|x s IH]; simpl; [reflexivity | now rewrite IH].
Qed.

Lemma nth_error_last s (o : @Object Move) :
  nth_error (s ++ [o]) (List.length s) = Some o.
Proof.
  rewrite nth_error_app2, Nat.sub_diag; [reflexivity | lia].
Qed.

(** C10.  On a store where [analysis] refers to a list of dictionaries,
    [find_worst_moves] returns normally and leaves every object that was in
    the store as it was: the list object behind [analysis] (its items and
    their order) and every dictionary.  The reference it returns is that of
    a list object allocated by the call, which holds the ranked
    records. *)
Theorem find_worst_moves_leaves_input
    s (analysis : Ref) (records : list (@MoveRecord Move)) :
  list_records s analysis = Ok records ->
  exists result s',
    find_worst_moves_in s analysis = Ok (result, s')
    /\ (forall r, (r < List.length s)%nat -> nth_error s' r = nth_error s r)
    /\ list_records s' analysis = Ok records
    /\ (List.length s <= result)%nat
    /\ result <> analysis
    /\ list_records s' result = Ok (find_worst_moves records).
Proof.
  unfold list_records, find_worst_moves_in, read_list, store_alloc.
  destruct (nth_error s analysis) as [[items|?]|] eqn:E; try discriminate.
  cbn [bind]. intro D. rewrite D. cbn [bind].
  rewrite nth_error_last. cbn [bind].
  rewrite store_write_last, nth_error_last. cbn [bind].
  set (kept := filter (ref_test s) items).
  set (sorted := list_sort (ref_key (s ++ [ListObject kept])) kept).
  assert (A : (analysis < List.length s)%nat) by (apply nth_error_Some; congruence).
  do 2 eexists. split; [reflexivity|].
  assert (F : forall r, (r < List.length s)%nat ->
              nth_error ((s ++ [ListObject sorted]) ++ [ListObject (firstn TOP_N sorted)]) r
              = nth_error s r).
  { intros r L. rewrite !nth_error_app1; [reflexivity | exact L |].
    rewrite length_app. lia. }
  split; [exact F|].
  apply read_dicts_holds in D.
  split; [|split; [|split]].
  - rewrite (F analysis A), E. cbn [bind].
    apply read_dicts_holds. eapply Forall2_impl; [|exact D].
    intros r record H. rewrite <- app_assoc. now apply holds_grows.
  - rewrite length_app. simpl. lia.
  - rewrite length_app. simpl. lia.
  - rewrite nth_error_last. cbn [bind].
    apply read_dicts_holds.
    eapply Forall2_impl with (R1 := holds s).
    { intros r record H. rewrite <- app_assoc. now apply holds_grows. }
    apply related_firstn, related_sort.
    + intros r record H. unfold ref_key.
      now rewrite (holds_grows s [ListObject kept] r record H).
    + apply related_filter; [|exact D].
      intros r record H. unfold ref_test. now rewrite H.
Qed.

End StoreFacts.

(** The witness of C10: the sample records in a store. *)
Lemma find_worst_moves_leaves_input_witness :
  exists result s',
    find_worst_moves_in Sample.store 6%nat = Ok (result, s')
    /\ (forall r, (r < List.length Sample.store)%nat ->
          nth_error s' r = nth_error Sample.store r)
    /\ list_records s' 6%nat = Ok Sample.analysis
    /\ (List.length Sample.store <= result)%nat
    /\ result <> 6%nat
    /\ list_records s' result = Ok (find_worst_moves Sample.analysis).
Proof.
  apply (find_worst_moves_leaves_input Sample.store 6%nat Sample.analysis).
  reflexivity.
Defined.

(** ** The single pass *)

Section SinglePass.

Context {Move : Type} (Move_eq_dec : forall a b : Move, {a = b} + {a <> b}).
Context {Board : Type} (rules : @Rules Move Board).

Local Abbreviation loop := (game_loop Move_eq_dec rules).

(** With an engine the pass over the moves always returns. *)
Lemma game_loop_returns (self : GameAnalyzer) (eng : Engine) :
  engine self = Some eng ->
  forall nodes board number ply current_analysis request moves_analysis,
  exists records,
    loop self nodes board number ply current_analysis request moves_analysis
    = Ok records.
Proof.
  intros E nodes. induction nodes as [|move rest IH]; intros; cbn [game_loop].
  - eexists; reflexivity.
  - destruct (analyze_position_returns Move_eq_dec self eng request
                (Board_push rules board move)
                (ply_time_limit ply (evaluation current_analysis)) E)
      as [next H].
    rewrite H. cbn [bind].
    destruct (Board_is_game_over rules (Board_push rules board move));
      [eexists; reflexivity | apply IH].
Qed.

Lemma analyze_game_returns (self : GameAnalyzer) (eng : Engine) (game : Game) :
  engine self = Some eng ->
  exists records, analyze_game Move_eq_dec rules self game = Ok records.
Proof.
  intro E. unfold analyze_game. rewrite E.
  destruct (analyze_position_returns Move_eq_dec self eng 0 (game_board game)
              QUICK_ANALYSIS_TIME E) as [first H].
  rewrite H. cbn [bind]. now apply (game_loop_returns self eng).
Qed.

(** The records appended by the pass: one per ply in ply order, each with
    the swing of its two evaluations. *)
Lemma game_loop_records (self : GameAnalyzer) :
  forall nodes board number ply current_analysis request moves_analysis records,
  loop self nodes board number ply current_analysis request moves_analysis
  = Ok records ->
  exists appended,
    records = moves_analysis ++ appended
    /\ (List.length appended <= List.length nodes)%nat
    /\ Forall (fun m => eval_change m
                        = _calculate_eval_change (eval_before m) (eval_after m))
              appended
    /\ map ply_index appended
       = map (fun i => (ply + Z.of_nat i)%Z) (seq 0 (List.length appended)).
Proof.
  induction nodes as [|move rest IH]; intros until records; cbn [game_loop].
  - intros [= <-]. exists []. rewrite app_nil_r. repeat split; simpl; auto.
  - destruct (analyze_position _ _ _ _ _) as [next|err]; cbn [bind]; [|discriminate].
    set (move_data := mkMoveRecord _ _ _ _ _ _ _ _ _ _ _ _ _).
    destruct (Board_is_game_over _ _).
    + intros [= <-]. exists [move_data]. repeat split; simpl.
      * lia.
      * repeat constructor.
      * now rewrite Z.add_0_r.
    + intro H. apply IH in H. destruct H as (appended & -> & L & F & P).
      exists (move_data :: appended). rewrite <- app_assoc. repeat split.
      * simpl. lia.
      * constructor; [reflexivity | exact F].
      * cbn [map List.length seq]. rewrite Z.add_0_r. f_equal.
        rewrite P, <- seq_shift, map_map. apply map_ext. intro i. lia.
Qed.

Lemma analyze_game_records (self : GameAnalyzer) (game : Game) records :
  analyze_game Move_eq_dec rules self game = Ok records ->
  (List.length records <= List.length (game_mainline game))%nat
  /\ Forall (fun m => eval_change m
                      = _calculate_eval_change (eval_before m) (eval_after m))
            records
  /\ map ply_index records = map Z.of_nat (seq 0 (List.length records)).
Proof.
  unfold analyze_game. destruct (engine self); [|discriminate].
  destruct (analyze_position _ _ _ _ _) as [first|err]; cbn [bind]; [|discriminate].
  intro H. apply game_loop_records in H.
  destruct H as (appended & -> & L & F & P). now rewrite app_nil_l.
Qed.

End SinglePass.

(** * Further properties of the code *)

(** ** Loops *)

Section LoopFacts.

Context {Move : Type} {State : Type} (step : State -> @Update Move -> Flow State).

Lemma run_loop_app (st : State) (taken : nat) (first rest : list Update) :
  run_loop step st taken (first ++ rest)
  = let done := run_loop step st taken first in
    if loop_broke done then done
    else run_loop step (loop_state done) (loop_taken done) rest.
Proof.
  revert st taken. induction first as [|u first IH]; intros st taken; simpl.
  - reflexivity.
  - destruct (step st u) as [st'|st']; [apply IH | reflexivity].
Qed.

(** A property of the locals that every iteration keeps holds when the
    loop is left. *)
Lemma run_loop_invariant (P : State -> Prop) (updates : list Update) :
  (forall st u st', In u updates -> P st ->
     step st u = Next st' \/ step st u = Break st' -> P st') ->
  forall st taken, P st -> P (loop_state (run_loop step st taken updates)).
Proof.
  induction updates as [|u rest IH]; intros K st taken H; simpl; [exact H|].
  destruct (step st u) as [st'|st'] eqn:E.
  - apply IH.
    + intros s v s' I. apply K. now right.
    + apply (K st u st'); auto. now left.
  - simpl. apply (K st u st'); auto. now left.
Qed.

Lemma run_loop_taken (updates : list Update) (st : State) (taken : nat) :
  let done := run_loop step st taken updates in
  (taken <= loop_taken done <= taken + List.length updates)%nat
  /\ (loop_broke done = false -> loop_taken done = (taken + List.length updates)%nat).
Proof.
  revert st taken. induction updates as [|u rest IH]; intros st taken; simpl.
  - split; [lia | intros _; lia].
  - destruct (step st u) as [st'|st'].
    + destruct (IH st' (S taken)) as [B N]. split; [lia|].
      intro H. rewrite (N H). lia.
    + simpl. split; [lia | discriminate].
Qed.

End LoopFacts.

Section StabilityFacts.

Context {Move : Type} (Move_eq_dec : forall a b : Move, {a = b} + {a <> b}).

Local Abbreviation step := (stability_step Move_eq_dec).

(** The four ways an iteration of the stability loop goes. *)
Lemma stability_step_cases (st : StabilityState) (u : Update) :
  (leading u = None /\ step st u = Next st)
  \/ (exists m st', leading u = Some m /\ last_best_move st <> Some m
        /\ step st u = Next st'
        /\ last_best_move st' = Some m /\ last_change_time st' = upd_clock u
        /\ best_pv st' = info_pv (upd_info u)
        /\ best_eval st' = _extract_evaluation (upd_info u))
  \/ (exists m st', leading u = Some m /\ last_best_move st = Some m
        /\ upd_clock u - last_change_time st < STABILITY_THRESHOLD
        /\ step st u = Next st'
        /\ last_best_move st' = Some m /\ last_change_time st' = last_change_time st
        /\ best_pv st' = info_pv (upd_info u)
        /\ best_eval st' = _extract_evaluation (upd_info u))
  \/ (exists m, leading u = Some m /\ last_best_move st = Some m
        /\ STABILITY_THRESHOLD <= upd_clock u - last_change_time st
        /\ step st u = Break st).
Proof.
  destruct (leading u) as [m|] eqn:L.
  - right.
    destruct (move_differs Move_eq_dec m (last_best_move st)) eqn:D.
    + apply move_differs_true in D. left.
      exists m. eexists. split; [reflexivity|]. split; [exact D|].
      split; [apply (stability_step_change Move_eq_dec st u m L D)|].
      simpl. now repeat split.
    + apply move_differs_false in D. right.
      destruct (Qlt_le_dec (upd_clock u - last_change_time st) STABILITY_THRESHOLD)
        as [T|T].
      * left. exists m. eexists. split; [reflexivity|]. split; [exact D|].
        split; [exact T|].
        split; [apply (stability_step_refinement Move_eq_dec st u m L D T)|].
        simpl. now repeat split.
      * right. exists m. repeat split; auto.
        now apply (stability_step_stop Move_eq_dec st u m).
  - left. split; [reflexivity | now apply stability_step_skips].
Qed.

End StabilityFacts.

Section StabilityVerdict.

Context {Move : Type} (Move_eq_dec : forall a b : Move, {a = b} + {a <> b}).

Local Abbreviation step := (stability_step Move_eq_dec).

(** The locals hold what [seen] carried, or are still [st0]. *)
Local Abbreviation holding st0 st seen :=
  (match seen with
   | Some v => tracks st (Some v) 0
   | None => st = st0
   end).

Lemma last_usable_cons (u : @Update Move) (l : list Update) :
  last_usable (u :: l)
  = match last_usable l with
    | Some v => Some v
    | None => match leading u with Some _ => Some u | None => None end
    end.
Proof. reflexivity. Qed.

Lemma holding_cons (st0 st1 st : @StabilityState Move) (u : Update) (l : list Update) :
  match leading u with
  | Some _ => tracks st1 (Some u) 0
  | None => st1 = st0
  end ->
  holding st1 st (last_usable l) ->
  holding st0 st (last_usable (u :: l)).
Proof.
  rewrite last_usable_cons. destruct (last_usable l) as [v|]; [auto|].
  intros H ->. destruct (leading u); exact H.
Qed.

Lemma run_stability_tracks (updates : list Update) :
  forall (st0 : StabilityState) (taken0 : nat),
  let done := run_loop step st0 taken0 updates in
  (loop_broke done = false -> holding st0 (loop_state done) (last_usable updates))
  /\ (loop_broke done = true ->
      exists seen u rest,
        updates = seen ++ u :: rest
        /\ loop_taken done = (taken0 + S (List.length seen))%nat
        /\ holding st0 (loop_state done) (last_usable seen)
        /\ leading u = last_best_move (loop_state done)
        /\ leading u <> None
        /\ STABILITY_THRESHOLD <= upd_clock u - last_change_time (loop_state done)).
Proof.
  induction updates as [|u rest IH]; intros st0 taken0; cbn [run_loop].
  - split; [reflexivity | discriminate].
  - assert (G : forall st1,
               step st0 u = Next st1 ->
               match leading u with
               | Some _ => tracks st1 (Some u) 0
               | None => st1 = st0
               end ->
               let done := run_loop step st1 (S taken0) rest in
               (loop_broke done = false ->
                  holding st0 (loop_state done) (last_usable (u :: rest)))
               /\ (loop_broke done = true ->
                   exists seen v rest',
                     u :: rest = seen ++ v :: rest'
                     /\ loop_taken done = (taken0 + S (List.length seen))%nat
                     /\ holding st0 (loop_state done) (last_usable seen)
                     /\ leading v = last_best_move (loop_state done)
                     /\ leading v <> None
                     /\ STABILITY_THRESHOLD
                        <= upd_clock v - last_change_time (loop_state done))).
    { intros st1 _ H1. destruct (IH st1 (S taken0)) as [N B]. split.
      - intro E. apply (holding_cons st0 st1); [exact H1 | now apply N].
      - intro E. destruct (B E) as (seen & v & rest' & -> & T & H & L1 & L2 & Q).
        exists (u :: seen), v, rest'. split; [reflexivity|].
        split; [simpl; lia|].
        split; [now apply (holding_cons st0 st1)|]. auto. }
    destruct (stability_step_cases Move_eq_dec st0 u)
      as [[L E] | [(m & st1 & L & _ & E & F1 & _ & F2 & F3)
         | [(m & st1 & L & _ & _ & E & F1 & _ & F2 & F3) | (m & L & D & T & E)]]];
      rewrite E.
    + apply G; [exact E | now rewrite L].
    + apply G; [exact E | rewrite L; unfold tracks; rewrite L; auto].
    + apply G; [exact E | rewrite L; unfold tracks; rewrite L; auto].
    + simpl. split; [discriminate|]. intros _.
      exists [], u, rest. split; [reflexivity|]. split; [simpl; lia|].
      split; [reflexivity|]. split; [congruence|]. split; [congruence | exact T].
Qed.

(** When the loop is left by [break], the update that made it stop. *)
Lemma stability_loop_verdict_aux (start_time : Q) (updates : list Update) :
  loop_broke (stability_loop Move_eq_dec start_time updates) = true ->
  exists seen u rest,
    updates = seen ++ u :: rest
    /\ loop_taken (stability_loop Move_eq_dec start_time updates) = S (List.length seen)
    /\ STABILITY_THRESHOLD
       <= upd_clock u
          - last_change_time (loop_state (stability_loop Move_eq_dec start_time updates)).
Proof.
  unfold stability_loop. intro E.
  destruct (run_stability_tracks updates (stability_start start_time) 0) as [_ B].
  destruct (B E) as (seen & u & rest & U & T & _ & _ & _ & Q).
  exists seen, u, rest. auto.
Qed.

(** The locals when the loop is left hold what some update carried, or
    are untouched. *)
Lemma stability_loop_verdict_aux2 (start_time : Q) (updates : list Update) :
  exists seen,
    tracks (loop_state (stability_loop Move_eq_dec start_time updates))
           (last_usable seen) start_time.
Proof.
  unfold stability_loop.
  destruct (run_stability_tracks updates (stability_start start_time) 0) as [N B].
  destruct (loop_broke (run_loop step (stability_start start_time) 0 updates)) eqn:E.
  - destruct (B eq_refl) as (seen & u & rest & _ & _ & H & _).
    exists seen. destruct (last_usable seen); exact H.
  - exists updates. specialize (N eq_refl). destruct (last_usable updates); exact N.
Qed.

(** X2.  What the stability loop holds when it is left.  If the stream
    ran out, every update was taken and the locals hold the move, the
    variation and the score of the last update that carried a variation.
    If the loop stopped, it stopped on an update that leads with the
    tracked move at least [STABILITY_THRESHOLD] seconds after the last
    change, and the locals hold what the last update with a variation
    before that one carried.  With no such update the locals are
    untouched. *)
Theorem stability_loop_verdict (start_time : Q) (updates : list Update) :
  let done := stability_loop Move_eq_dec start_time updates in
  (loop_broke done = false ->
     loop_taken done = List.length updates
     /\ tracks (loop_state done) (last_usable updates) start_time)
  /\ (loop_broke done = true ->
      exists seen u rest,
        updates = seen ++ u :: rest
        /\ loop_taken done = S (List.length seen)
        /\ tracks (loop_state done) (last_usable seen) start_time
        /\ leading u = last_best_move (loop_state done)
        /\ leading u <> None
        /\ STABILITY_THRESHOLD <= upd_clock u - last_change_time (loop_state done)).
Proof.
  unfold stability_loop.
  destruct (run_stability_tracks updates (stability_start start_time) 0) as [N B].
  split.
  - intro E. split.
    + now apply (run_loop_taken step updates (stability_start start_time) 0).
    + specialize (N E). destruct (last_usable updates); exact N.
  - intro E. destruct (B E) as (seen & u & rest & -> & T & H & L).
    exists seen, u, rest. split; [reflexivity|]. split; [exact T|].
    split; [|exact L]. destruct (last_usable seen); exact H.
Qed.

End StabilityVerdict.

Section Convergence2.

Context {Move : Type} (Move_eq_dec : forall a b : Move, {a = b} + {a <> b}).
Context {Board : Type}.

Local Abbreviation step := (stability_step Move_eq_dec).

(** While the tracked move stays on top and the quiet period is not over,
    the loop keeps running and the time of the last change stays. *)
Lemma run_loop_quiet (m : Move) (since : Q) (quiet : list Update) :
  Forall (fun v => leading v = None
                   \/ (leading v = Some m
                       /\ upd_clock v - since < STABILITY_THRESHOLD)) quiet ->
  forall (st : StabilityState) (taken : nat),
    last_best_move st = Some m -> last_change_time st = since ->
    let done := run_loop step st taken quiet in
    loop_broke done = false
    /\ loop_taken done = (taken + List.length quiet)%nat
    /\ last_best_move (loop_state done) = Some m
    /\ last_change_time (loop_state done) = since.
Proof.
  induction 1 as [|v quiet Hv _ IH]; intros st taken B C; cbn [run_loop].
  - repeat split; auto; simpl; lia.
  - destruct Hv as [L | [L T]].
    + rewrite (stability_step_skips Move_eq_dec st v L).
      destruct (IH st (S taken) B C) as (H1 & H2 & H3 & H4).
      repeat split; auto; rewrite H2; simpl; lia.
    + rewrite <- C in T.
      rewrite (stability_step_refinement Move_eq_dec st v m L B T).
      match goal with |- context [run_loop _ ?s _ _] =>
        destruct (IH s (S taken) B C) as (H1 & H2 & H3 & H4) end.
      repeat split; auto; rewrite H2; simpl; lia.
Qed.

(** X3.  A stream whose first update leads with [m], followed by updates
    that carry no variation or lead with [m] within the quiet period,
    followed by an update that leads with [m] once the quiet period is
    over: the loop stops on that update, without reading the rest, with
    [m] as best move. *)
Theorem stability_loop_stops_when_quiet
    (start_time : Q) (first : Update) (quiet : list Update) (final : Update)
    (rest : list Update) (m : Move) :
  leading first = Some m ->
  Forall (fun v => leading v = None
                   \/ (leading v = Some m
                       /\ upd_clock v - upd_clock first < STABILITY_THRESHOLD)) quiet ->
  leading final = Some m ->
  STABILITY_THRESHOLD <= upd_clock final - upd_clock first ->
  loop_broke (stability_loop Move_eq_dec start_time (first :: quiet ++ final :: rest))
  = true
  /\ loop_taken (stability_loop Move_eq_dec start_time (first :: quiet ++ final :: rest))
     = S (S (List.length quiet))
  /\ last_best_move
       (loop_state (stability_loop Move_eq_dec start_time (first :: quiet ++ final :: rest)))
     = Some m.
Proof.
  intros L1 Hq L2 T. unfold stability_loop. cbn [run_loop].
  rewrite (stability_step_change Move_eq_dec (stability_start start_time) first m L1)
    by discriminate.
  rewrite run_loop_app.
  match goal with |- context [run_loop _ ?s 1 quiet] =>
    destruct (run_loop_quiet m (upd_clock first) quiet Hq s 1 eq_refl eq_refl)
      as (H1 & H2 & H3 & H4);
    set (done := run_loop step s 1 quiet) in * end.
  cbv zeta. rewrite H1. cbn [run_loop].
  rewrite <- H4 in T.
  rewrite (stability_step_stop Move_eq_dec (loop_state done) final m L2 H3 T).
  cbn [loop_broke loop_taken loop_state]. rewrite H2. auto.
Qed.

(** The time of the last change is never before the start when no update
    is stamped before the start. *)
Lemma last_change_after_start (start_time : Q) (updates : list Update) :
  Forall (fun u => start_time <= upd_clock u) updates ->
  start_time
  <= last_change_time (loop_state (stability_loop Move_eq_dec start_time updates)).
Proof.
  intro F. unfold stability_loop.
  apply (run_loop_invariant step (fun st => start_time <= last_change_time st)).
  - intros st u st' I P E. rewrite Forall_forall in F. specialize (F u I).
    destruct (stability_step_cases Move_eq_dec st u)
      as [[_ E'] | [(m & s & _ & _ & E' & _ & C & _)
         | [(m & s & _ & _ & _ & E' & _ & C & _) | (m & _ & _ & _ & E')]]];
      rewrite E' in E; destruct E as [[= <-]|[= <-]]; try rewrite C; auto.
  - simpl. apply Qle_refl.
Qed.

(** X4.  When the clock does not run backwards (no update is stamped
    before the start, and the clock read after the stream is closed is not
    before the last update taken), a verdict reached by stability reports
    a time taken of at least [STABILITY_THRESHOLD]. *)
Theorem converged_verdict_took_quiet_period
    (self : @GameAnalyzer Move Board) (eng : Engine) (request : nat)
    (board : Board) (time_limit : Q) (verdict : PositionAnalysis) :
  engine self = Some eng ->
  Qeq_bool time_limit QUICK_ANALYSIS_TIME = false ->
  Forall (fun u => engine_clock eng request <= upd_clock u)
         (stream_updates (engine_analysis eng request board 86400)) ->
  (forall k u,
      nth_error (stream_updates (engine_analysis eng request board 86400)) k = Some u ->
      upd_clock u <= stream_closed (engine_analysis eng request board 86400) (S k)) ->
  loop_broke (stability_loop Move_eq_dec (engine_clock eng request)
                (stream_updates (engine_analysis eng request board 86400))) = true ->
  analyze_position Move_eq_dec self request board time_limit = Ok verdict ->
  STABILITY_THRESHOLD <= time_taken verdict.
Proof.
  intros E M F C B. unfold analyze_position. rewrite E, M. cbn [negb andb String.eqb].
  change (String.eqb ANALYSIS_MODE "stability") with true. cbn [andb].
  intros [= <-]. cbn [time_taken].
  set (stream := engine_analysis eng request board 86400) in *.
  set (start := engine_clock eng request) in *.
  pose proof (last_change_after_start start (stream_updates stream) F) as S0.
  destruct (stability_loop_verdict_aux Move_eq_dec start (stream_updates stream) B)
    as (seen & u & rest & U & T & Q).
  rewrite T.
  assert (N : nth_error (stream_updates stream) (List.length seen) = Some u).
  { rewrite U, nth_error_app2, Nat.sub_diag by lia. reflexivity. }
  specialize (C _ _ N). lra.
Qed.

End Convergence2.

Section VerdictShape.

Context {Move : Type} (Move_eq_dec : forall a b : Move, {a = b} + {a <> b}).
Context {Board : Type}.

Lemma leading_hd (u : @Update Move) :
  leading u = match info_pv (upd_info u) with
              | Some pv => hd_error pv
              | None => None
              end.
Proof.
  unfold leading. now destruct (info_pv (upd_info u)) as [[|m pv]|].
Qed.

(** The tracked move is the first move of the tracked variation. *)
Lemma stability_loop_pv (start_time : Q) (updates : list Update) :
  let st := loop_state (stability_loop Move_eq_dec start_time updates) in
  last_best_move st = match best_pv st with
                      | Some pv => hd_error pv
                      | None => None
                      end.
Proof.
  cbv zeta.
  destruct (stability_loop_verdict_aux2 Move_eq_dec start_time updates)
    as [seen T].
  destruct (last_usable seen) as [u|]; simpl in T.
  - destruct T as (L & P & _). rewrite L, P. apply leading_hd.
  - now rewrite T.
Qed.

Lemma hd_firstn {A : Type} (n : nat) (l : list A) :
  hd_error (firstn (S n) l) = hd_error l.
Proof. now destruct l. Qed.

(** X1.  Whatever the mode, the verdict of [analyze_position] has as best
    move the first move of its principal variation (none when the
    variation is empty), and the variation has at most seven moves. *)
Theorem analyze_position_verdict_shape
    (self : @GameAnalyzer Move Board) (request : nat) (board : Board)
    (time_limit : Q) (verdict : PositionAnalysis) :
  analyze_position Move_eq_dec self request board time_limit = Ok verdict ->
  hd_error (principal_variation verdict) = best_move verdict
  /\ (List.length (principal_variation verdict) <= 7)%nat.
Proof.
  unfold analyze_position. destruct (engine self) as [eng|]; [|discriminate].
  destruct (_ && _).
  - intros [= <-]. cbn [principal_variation best_move].
    rewrite stability_loop_pv. unfold first_seven.
    destruct (best_pv _) as [pv|]; simpl.
    + split; [now destruct pv | apply (firstn_le_length 7)].
    + split; [reflexivity | lia].
  - intros [= <-]. unfold blocking_result.
    destruct (answer_reply _) as [[|info infos]|info];
      try (simpl; split; [reflexivity | lia]);
      destruct (info_pv info) as [[|m pv]|], (info_score info);
      cbn [principal_variation best_move]; split;
      try reflexivity; try (simpl; lia);
      apply (firstn_le_length 7).
Qed.

(** X5.  In stability mode, when no update of the stream carries a
    variation, [analyze_position] returns normally with no best move, no
    evaluation and an empty variation, after reading the whole stream: the
    scores such updates carry are not used. *)
Theorem analyze_position_without_variation
    (self : @GameAnalyzer Move Board) (eng : Engine) (request : nat)
    (board : Board) (time_limit : Q) :
  engine self = Some eng ->
  Qeq_bool time_limit QUICK_ANALYSIS_TIME = false ->
  Forall (fun u => leading u = None)
         (stream_updates (engine_analysis eng request board 86400)) ->
  analyze_position Move_eq_dec self request board time_limit
  = Ok {| best_move := None;
          evaluation := None;
          principal_variation := [];
          time_taken :=
            stream_closed (engine_analysis eng request board 86400)
              (List.length (stream_updates (engine_analysis eng request board 86400)))
            - engine_clock eng request |}.
Proof.
  intros E M F. unfold analyze_position. rewrite E, M.
  change (String.eqb ANALYSIS_MODE "stability") with true. cbn [andb negb].
  set (updates := stream_updates _) in *.
  assert (R : forall st taken,
             run_loop (stability_step Move_eq_dec) st taken updates
             = mkLoopEnd st (taken + List.length updates) false).
  { clearbody updates. induction F as [|u updates L _ IH]; intros st taken; simpl.
    - now rewrite Nat.add_0_r.
    - rewrite (stability_step_skips Move_eq_dec st u L), IH. f_equal. lia. }
  unfold stability_loop. rewrite R. reflexivity.
Qed.

End VerdictShape.

(** ** The deep analyzer *)

Section DeepFacts.

Context {Move : Type} (Move_eq_dec : forall a b : Move, {a = b} + {a <> b}).
Context {Board : Type} (rules : @Rules Move Board).

Lemma run_loop_ext {State : Type} (f g : State -> @Update Move -> Flow State)
    (updates : list Update) :
  (forall st u, f st u = g st u) ->
  forall st taken, run_loop f st taken updates = run_loop g st taken updates.
Proof.
  intro E. induction updates as [|u rest IH]; intros st taken; simpl; [reflexivity|].
  rewrite E. destruct (g st u); [apply IH | reflexivity].
Qed.



(** The ways an iteration of the deep loop goes: an update without a
    variation is skipped, any other is taken before the loop goes on or
    stops. *)
Lemma deep_step_cases (start_time duration_seconds : Q) (st : DeepState) (u : Update) :
  (leading u = None
   /\ deep_step Move_eq_dec start_time duration_seconds st u = Next st)
  \/ (exists st',
        leading u <> None
        /\ (deep_step Move_eq_dec start_time duration_seconds st u = Next st'
            \/ deep_step Move_eq_dec start_time duration_seconds st u = Break st')
        /\ deep_tracks st' (Some u) 0).
Proof.
  unfold deep_step, leading, deep_tracks, leading.
  destruct (info_pv (upd_info u)) as [[|m pv]|]; try (left; split; reflexivity).
  right. change (String.eqb ANALYSIS_MODE "time") with false.
  change (String.eqb ANALYSIS_MODE "stability") with true. cbn [andb].
  destruct (match last_pv st with
            | Some _ => move_differs Move_eq_dec m (deep_last_best_move st)
            | None => true
            end).
  - eexists. split; [discriminate|]. split; [left; reflexivity|]. now repeat split.
  - destruct (Qgeb _ _); eexists; (split; [discriminate|]);
      (split; [(left; reflexivity) || (right; reflexivity)|]); now repeat split.
Qed.

Lemma run_deep_tracks (start_time duration_seconds : Q) (updates : list Update) :
  forall (st0 : DeepState) (taken0 : nat),
  let done := run_loop (deep_step Move_eq_dec start_time duration_seconds)
                st0 taken0 updates in
  match last_usable (firstn (loop_taken done - taken0) updates) with
  | Some v => deep_tracks (loop_state done) (Some v) 0
  | None => loop_state done = st0
  end.
Proof.
  induction updates as [|u rest IH]; intros st0 taken0; cbn [run_loop].
  - simpl. now rewrite firstn_nil.
  - assert (G : forall st1,
               match leading u with
               | Some _ => deep_tracks st1 (Some u) 0
               | None => st1 = st0
               end ->
               let done := run_loop (deep_step Move_eq_dec start_time duration_seconds)
                             st1 (S taken0) rest in
               match last_usable (firstn (loop_taken done - taken0) (u :: rest)) with
               | Some v => deep_tracks (loop_state done) (Some v) 0
               | None => loop_state done = st0
               end).
    { intros st1 H1. cbv zeta.
      pose proof (run_loop_taken (deep_step Move_eq_dec start_time duration_seconds)
                    rest st1 (S taken0)) as [[T _] _].
      specialize (IH st1 (S taken0)). cbv zeta in IH.
      set (done := run_loop _ st1 (S taken0) rest) in *.
      replace (loop_taken done - taken0)%nat with (S (loop_taken done - S taken0)) by lia.
      cbn [firstn]. rewrite last_usable_cons.
      destruct (last_usable (firstn (loop_taken done - S taken0) rest)) as [v|];
        [exact IH|].
      rewrite IH. destruct (leading u); exact H1. }
    destruct (deep_step_cases start_time duration_seconds st0 u)
      as [[L E] | (st1 & L & [E|E] & F)]; rewrite E.
    + apply G. now rewrite L.
    + apply G. destruct (leading u); [exact F | congruence].
    + cbn [loop_taken loop_state].
      replace (S taken0 - taken0)%nat with 1%nat by lia.
      cbn [firstn]. rewrite last_usable_cons. cbn [last_usable].
      destruct (leading u); [exact F | congruence].
Qed.

Lemma deep_loop_state_of (start_time duration_seconds : Q) (updates : list Update) :
  let done := run_loop (deep_step Move_eq_dec start_time duration_seconds)
                (deep_start start_time) 0 updates in
  deep_tracks (loop_state done) (last_usable (firstn (loop_taken done) updates))
              start_time.
Proof.
  cbv zeta.
  pose proof (run_deep_tracks start_time duration_seconds updates
                (deep_start start_time) 0) as H.
  cbv zeta in H. rewrite Nat.sub_0_r in H.
  destruct (last_usable _); exact H.
Qed.

(** X6.  The deep loop takes an update before it tests the quiet period:
    when it is left its locals hold the move, the variation and the score
    of the last update with a variation among those taken, the one it
    stopped on included; it reads the whole stream unless it stops. *)
Theorem deep_loop_tracks_latest (start_time duration_seconds : Q) (updates : list Update) :
  let done := run_loop (deep_step Move_eq_dec start_time duration_seconds)
                (deep_start start_time) 0 updates in
  (loop_taken done <= List.length updates)%nat
  /\ (loop_broke done = false -> loop_taken done = List.length updates)
  /\ deep_tracks (loop_state done) (last_usable (firstn (loop_taken done) updates))
                 start_time.
Proof.
  cbv zeta.
  pose proof (run_loop_taken (deep_step Move_eq_dec start_time duration_seconds)
                updates (deep_start start_time) 0) as [[_ T] N].
  split; [exact T|]. split; [exact N|].
  apply deep_loop_state_of.
Qed.

(** X7.  With [ANALYSIS_MODE] set to "stability", the duration given to
    [analyze_specific_move] has no effect on what it does. *)
Theorem analyze_specific_move_ignores_duration
    (self : GameAnalyzer) (board : Board) (duration other_duration : Q)
    (actual_move : option Move) :
  analyze_specific_move Move_eq_dec rules self board duration actual_move
  = analyze_specific_move Move_eq_dec rules self board other_duration actual_move.
Proof.
  unfold analyze_specific_move. destruct (engine self) as [eng|]; [|reflexivity].
  change (String.eqb ANALYSIS_MODE "stability") with true. cbv iota.
  set (request := match _ with Some _ => 1%nat | None => 0%nat end).
  rewrite (run_loop_ext (deep_step Move_eq_dec (engine_clock eng request) duration)
             (deep_step Move_eq_dec (engine_clock eng request) other_duration));
    [reflexivity|].
  intros st u. unfold deep_step.
  change (String.eqb ANALYSIS_MODE "time") with false. reflexivity.
Qed.


End DeepFacts.

(** ** The single pass, ply by ply *)

Section SinglePass2.

Context {Move : Type} (Move_eq_dec : forall a b : Move, {a = b} + {a <> b}).
Context {Board : Type} (rules : @Rules Move Board).

Local Abbreviation loop := (game_loop Move_eq_dec rules).

Lemma board_after_cons (board : Board) (m : Move) (line : list Move) (k : nat) :
  board_after rules board (m :: line) (S k)
  = board_after rules (Board_push rules board m) line k.
Proof. reflexivity. Qed.

Lemma game_loop_follows (self : GameAnalyzer) :
  forall nodes board number ply current request moves_analysis records,
  loop self nodes board number ply current request moves_analysis = Ok records ->
  exists appended,
    records = moves_analysis ++ appended
    /\ follows rules board nodes ply current appended
    /\ (List.length appended = List.length nodes
        \/ Board_is_game_over rules
             (board_after rules board nodes (List.length appended)) = true).
Proof.
  induction nodes as [|move rest IH]; intros until records; cbn [game_loop].
  - intros [= <-]. exists []. rewrite app_nil_r. simpl. auto.
  - destruct (analyze_position _ _ _ _ _) as [next|err]; cbn [bind]; [|discriminate].
    set (move_data := mkMoveRecord _ _ _ _ _ _ _ _ _ _ _ _ _).
    destruct (Board_is_game_over _ _) eqn:G.
    + intros [= <-]. exists [move_data]. split; [reflexivity|]. split.
      * cbn [follows]. repeat (split; [solve [auto]|]).
        exists next. cbn [follows]. auto.
      * right. exact G.
    + intro H. apply IH in H. destruct H as (appended & -> & F & L).
      exists (move_data :: appended). rewrite <- app_assoc. split; [reflexivity|].
      split.
      * cbn [follows]. repeat (split; [solve [auto]|]).
        exists next. auto.
      * cbn [List.length]. rewrite board_after_cons.
        destruct L as [L|L]; [left; now rewrite L | right; exact L].
Qed.

Lemma analyze_game_follows (self : GameAnalyzer) (game : Game) (records : list MoveRecord) :
  analyze_game Move_eq_dec rules self game = Ok records ->
  exists first,
    follows rules (game_board game) (game_mainline game) 0 first records
    /\ (List.length records = List.length (game_mainline game)
        \/ Board_is_game_over rules
             (board_after rules (game_board game) (game_mainline game)
                (List.length records)) = true).
Proof.
  unfold analyze_game. destruct (engine self); [|discriminate].
  destruct (analyze_position _ _ _ _ _) as [first|err]; cbn [bind]; [|discriminate].
  intro H. apply game_loop_follows in H.
  destruct H as (appended & -> & F & L). rewrite app_nil_l. now exists first.
Qed.

(** What [follows] says of the [i]-th record. *)
Lemma follows_nth (line : list Move) :
  forall board ply current records i r,
  follows rules board line ply current records ->
  nth_error records i = Some r ->
  ply_index r = (ply + Z.of_nat i)%Z
  /\ nth_error line i = Some (move r)
  /\ pre_move_fen r = Board_fen rules (board_after rules board line i)
  /\ board_fen r = Board_fen rules (board_after rules board line (S i))
  /\ player r = player_name (Board_turn rules (board_after rules board line i))
  /\ (S i < List.length records ->
      Board_is_game_over rules (board_after rules board line (S i)) = false)%nat.
Proof.
  induction line as [|m line IH]; intros board ply current records i r F N.
  - destruct records; [now destruct i | contradiction].
  - destruct records as [|r0 rest]; [now destruct i|].
    cbn [follows] in F.
    destruct F as (F1 & F2 & F3 & F4 & F5 & F6 & F7 & F8 & F9 & F10 & next & _ & _ & F).
    destruct i as [|i].
    + injection N as <-. simpl. rewrite Z.add_0_r, F1.
      repeat split; auto.
      intro L. destruct F10 as [->|G]; [simpl in L; lia | exact G].
    + simpl in N. destruct (IH _ _ _ _ _ _ F N) as (H1 & H2 & H3 & H4 & H5 & H6).
      rewrite !board_after_cons. repeat split; auto.
      * rewrite H1. lia.
      * intro L. apply H6. simpl in L. lia.
Qed.

Lemma follows_chain (line : list Move) :
  forall board ply current records before r1 r2 after,
  follows rules board line ply current records ->
  records = before ++ r1 :: r2 :: after ->
  eval_before r2 = eval_after r1
  /\ time_taken_before r2 = time_taken_after r1
  /\ evaluation (position_analysis r2) = eval_after r1
  /\ pre_move_fen r2 = board_fen r1
  /\ ply_index r2 = (ply_index r1 + 1)%Z.
Proof.
  induction line as [|m line IH]; intros board ply current records before r1 r2 after F E.
  - subst. destruct before; contradiction.
  - subst. destruct before as [|r0 before].
    + cbn [app follows] in F.
      destruct F as (_ & P1 & _ & B1 & _ & _ & _ & _ & _ & _ & next & A1 & T1 & F).
      destruct line as [|m' line]; [contradiction|]. cbn [follows] in F.
      destruct F as (_ & P2 & Fen & _ & _ & _ & PA & EB & TB & _).
      rewrite PA, EB, TB, A1, T1, Fen, B1, P2, P1. auto.
    + cbn [app follows] in F.
      destruct F as (_ & _ & _ & _ & _ & _ & _ & _ & _ & _ & next & _ & _ & F).
      now apply (IH _ _ _ _ before r1 r2 after F).
Qed.

(** X9.  Consecutive records of [analyze_game] are chained: the second
    starts from the evaluation, the time and the position the first ended
    with, and its ply index is the next one. *)
Theorem analyze_game_chains_verdicts
    (self : GameAnalyzer) (game : Game)
    (before : list MoveRecord) (r1 r2 : MoveRecord) (after : list MoveRecord) :
  analyze_game Move_eq_dec rules self game = Ok (before ++ r1 :: r2 :: after) ->
  eval_before r2 = eval_after r1
  /\ time_taken_before r2 = time_taken_after r1
  /\ evaluation (position_analysis r2) = eval_after r1
  /\ pre_move_fen r2 = board_fen r1
  /\ ply_index r2 = (ply_index r1 + 1)%Z.
Proof.
  intro H. apply analyze_game_follows in H. destruct H as (first & F & _).
  now apply (follows_chain _ _ _ _ _ before r1 r2 after F).
Qed.

(** X10.  [analyze_game] records the moves of the mainline in order from
    the first one, and stops before the end of the mainline only after a
    move that ends the game: either every move has a record, or the
    position after the last recorded move is over; no earlier recorded
    position is. *)
Theorem analyze_game_stops_at_game_over
    (self : GameAnalyzer) (game : Game) (records : list MoveRecord) :
  analyze_game Move_eq_dec rules self game = Ok records ->
  map move records = firstn (List.length records) (game_mainline game)
  /\ (List.length records = List.length (game_mainline game)
      \/ Board_is_game_over rules
           (board_after rules (game_board game) (game_mainline game)
              (List.length records)) = true)
  /\ (forall k, (0 < k < List.length records)%nat ->
        Board_is_game_over rules
          (board_after rules (game_board game) (game_mainline game) k) = false).
Proof.
  intro H. apply analyze_game_follows in H. destruct H as (first & F & L).
  split; [|split; [exact L|]].
  - apply nth_error_ext. intro i.
    destruct (nth_error records i) as [r|] eqn:N.
    + rewrite (map_nth_error _ _ _ N).
      destruct (follows_nth _ _ _ _ _ _ _ F N) as (_ & M & _).
      assert (I : (i < List.length records)%nat) by (apply nth_error_Some; congruence).
      now rewrite nth_error_firstn, (proj2 (Nat.ltb_lt _ _) I).
    + apply nth_error_None in N.
      rewrite (proj2 (nth_error_None _ _)).
      * symmetry. apply nth_error_None. rewrite length_firstn. lia.
      * now rewrite length_map.
  - intros [|k] B; [lia|].
    destruct (nth_error records k) as [r|] eqn:N.
    + destruct (follows_nth _ _ _ _ _ _ _ F N) as (_ & _ & _ & _ & _ & G).
      apply G. lia.
    + apply nth_error_None in N. lia.
Qed.

End SinglePass2.

Section SinglePass3.

Context {Move : Type} (Move_eq_dec : forall a b : Move, {a = b} + {a <> b}).
Context {Board : Type} (rules : @Rules Move Board).

Local Abbreviation loop := (game_loop Move_eq_dec rules).

(** At the quick budget the engine is asked once, through the blocking
    call. *)
Lemma analyze_position_quick (self : GameAnalyzer) (eng : Engine)
    (request : nat) (board : Board) :
  engine self = Some eng ->
  analyze_position Move_eq_dec self request board QUICK_ANALYSIS_TIME
  = Ok (blocking_result
          (answer_reply (engine_analyse eng request board QUICK_ANALYSIS_TIME))
          (answer_clock (engine_analyse eng request board QUICK_ANALYSIS_TIME)
           - engine_clock eng request)).
Proof.
  intro E. unfold analyze_position. now rewrite E.
Qed.

Lemma game_loop_quick (self other : GameAnalyzer) (eng eng' : Engine) :
  engine self = Some eng -> engine other = Some eng' ->
  (forall n, engine_clock eng n = engine_clock eng' n) ->
  (forall n b t, engine_analyse eng n b t = engine_analyse eng' n b t) ->
  forall nodes board number ply current request moves_analysis,
  (ply + Z.of_nat (List.length nodes) < QUICK_ANALYSIS_PLY)%Z ->
  loop self nodes board number ply current request moves_analysis
  = loop other nodes board number ply current request moves_analysis.
Proof.
  intros E E' C A. induction nodes as [|move rest IH]; intros; cbn [game_loop].
  - reflexivity.
  - cbn [List.length] in H.
    assert (T : ply_time_limit ply (evaluation current) = QUICK_ANALYSIS_TIME).
    { unfold ply_time_limit.
      destruct (ply + 1 <? QUICK_ANALYSIS_PLY)%Z eqn:L; [reflexivity|].
      apply Z.ltb_ge in L. lia. }
    rewrite T, (analyze_position_quick self eng _ _ E),
      (analyze_position_quick other eng' _ _ E'), C, A.
    cbn [bind]. destruct (Board_is_game_over _ _); [reflexivity|].
    apply IH. lia.
Qed.

(** X11.  For a game of fewer than 50 plies [analyze_game] only uses the
    blocking engine call: two engines that agree on the clock and on
    [analyse] give the same records, whatever their [analysis] streams. *)
Theorem analyze_game_short_game_never_streams
    (self other : GameAnalyzer) (eng eng' : Engine) (game : Game) :
  engine self = Some eng -> engine other = Some eng' ->
  (forall n, engine_clock eng n = engine_clock eng' n) ->
  (forall n b t, engine_analyse eng n b t = engine_analyse eng' n b t) ->
  (Z.of_nat (List.length (game_mainline game)) < QUICK_ANALYSIS_PLY)%Z ->
  analyze_game Move_eq_dec rules self game
  = analyze_game Move_eq_dec rules other game.
Proof.
  intros E E' C A L. unfold analyze_game. rewrite E, E'.
  rewrite (analyze_position_quick self eng _ _ E),
    (analyze_position_quick other eng' _ _ E'), C, A.
  cbn [bind]. apply (game_loop_quick self other eng eng' E E' C A). lia.
Qed.

(** X12.  In the records of [analyze_game] the ply indices are 0, 1, 2,
    ... in order, and each swing is that of the record's two evaluations:
    absent exactly when one of them is, [(- after) - before]
    otherwise. *)
Theorem analyze_game_swings
    (self : GameAnalyzer) (game : Game) (records : list MoveRecord) :
  analyze_game Move_eq_dec rules self game = Ok records ->
  map ply_index records = map Z.of_nat (seq 0 (List.length records))
  /\ Forall (fun r =>
       (eval_change r = None <-> eval_before r = None \/ eval_after r = None)
       /\ (forall before after,
             eval_before r = Some before -> eval_after r = Some after ->
             eval_change r = Some (- after - before)))
     records.
Proof.
  intro H. apply analyze_game_records in H. destruct H as (_ & F & P).
  split; [exact P|].
  eapply Forall_impl; [|exact F]. intros r ->.
  destruct (eval_before r), (eval_after r); simpl; split;
    try (split; [discriminate | intros [|]; discriminate]);
    try (split; auto; fail);
    try (intros ? ? [= <-] [= <-]; reflexivity);
    try (intros; discriminate).
Qed.

(** Move numbers and players along the loop when turns alternate. *)
Lemma game_loop_numbering (self : GameAnalyzer) :
  alternating rules ->
  forall nodes board number ply current request moves_analysis records,
  (0 <= ply)%Z ->
  Board_turn rules board = (if Z.even ply then White else Black) ->
  number = (ply / 2 + 1)%Z ->
  loop self nodes board number ply current request moves_analysis = Ok records ->
  exists appended,
    records = moves_analysis ++ appended
    /\ Forall (fun r =>
         (0 <= ply_index r)%Z
         /\ move_number r = (ply_index r / 2 + 1)%Z
         /\ player r = (if Z.even (ply_index r) then "White" else "Black")%string)
       appended.
Proof.
  intro Alt. induction nodes as [|move rest IH]; intros until records;
    intros P T N; cbn [game_loop].
  - intros [= <-]. exists []. now rewrite app_nil_r.
  - destruct (analyze_position _ _ _ _ _) as [next|err]; cbn [bind]; [|discriminate].
    set (move_data := mkMoveRecord _ _ _ _ _ _ _ _ _ _ _ _ _).
    assert (D : (0 <= ply_index move_data)%Z
                /\ move_number move_data = (ply_index move_data / 2 + 1)%Z
                /\ player move_data
                   = (if Z.even (ply_index move_data) then "White" else "Black")%string).
    { simpl. rewrite T. split; [exact P|]. split; [exact N|].
      now destruct (Z.even ply). }
    destruct (Board_is_game_over _ _).
    + intros [= <-]. exists [move_data]. split; [reflexivity|]. now constructor.
    + intro H. apply IH in H.
      * destruct H as (appended & -> & F).
        exists (move_data :: appended). rewrite <- app_assoc.
        split; [reflexivity | now constructor].
      * lia.
      * rewrite Alt, T. replace (ply + 1)%Z with (Z.succ ply) by lia.
        rewrite Z.even_succ, <- Z.negb_even. now destruct (Z.even ply).
      * rewrite Alt, T. subst number.
        destruct (Z.even ply) eqn:Ev; simpl.
        -- apply Z.even_spec in Ev. destruct Ev as [k ->].
           replace (2 * k + 1)%Z with (1 + k * 2)%Z by lia.
           rewrite Z.div_add by lia. replace (2 * k)%Z with (0 + k * 2)%Z by lia.
           rewrite Z.div_add by lia. reflexivity.
        -- rewrite <- Z.negb_odd in Ev. apply negb_false_iff, Z.odd_spec in Ev.
           destruct Ev as [k ->].
           replace (2 * k + 1 + 1)%Z with (0 + (k + 1) * 2)%Z by lia.
           rewrite Z.div_add by lia.
           replace (2 * k + 1)%Z with (1 + k * 2)%Z by lia.
           rewrite Z.div_add by lia. simpl. lia.
Qed.

Lemma analyze_game_numbering_at
    (self : GameAnalyzer) (game : Game) (records : list MoveRecord) (r : MoveRecord) :
  alternating rules ->
  Board_turn rules (game_board game) = White ->
  analyze_game Move_eq_dec rules self game = Ok records ->
  In r records ->
  move_number r = (ply_index r / 2 + 1)%Z
  /\ player r = (if Z.even (ply_index r) then "White" else "Black")%string.
Proof.
  intros Alt W. unfold analyze_game. destruct (engine self); [|discriminate].
  destruct (analyze_position _ _ _ _ _) as [first|err]; cbn [bind]; [|discriminate].
  intros H I. apply (game_loop_numbering self Alt) in H; auto; [|lia].
  destruct H as (appended & -> & F). rewrite app_nil_l in I.
  rewrite Forall_forall in F. now destruct (F r I) as (_ & H).
Qed.

(** X13.  When turns alternate and White moves first, the record of ply
    [p] has move number [p / 2 + 1] and names White for even [p], Black
    for odd [p]. *)
Theorem analyze_game_numbering
    (self : GameAnalyzer) (game : Game) (records : list MoveRecord) :
  alternating rules ->
  Board_turn rules (game_board game) = White ->
  analyze_game Move_eq_dec rules self game = Ok records ->
  Forall (fun r =>
       move_number r = (ply_index r / 2 + 1)%Z
       /\ player r = (if Z.even (ply_index r) then "White" else "Black")%string)
     records.
Proof.
  intros Alt W. unfold analyze_game. destruct (engine self); [|discriminate].
  destruct (analyze_position _ _ _ _ _) as [first|err]; cbn [bind]; [|discriminate].
  intro H. apply (game_loop_numbering self Alt) in H; auto; [|lia].
  destruct H as (appended & -> & F). rewrite app_nil_l.
  eapply Forall_impl; [|exact F]. now intros r (_ & H).
Qed.

End SinglePass3.

(** ** The selector, continued *)

Section Selector2.

Context {Move : Type}.
Implicit Types (m w : @MoveRecord Move) (analysis : list (@MoveRecord Move)).

Lemma sorted_app_le {A : Type} (R : A -> A -> Prop) (l1 l2 : list A) :
  StronglySorted R (l1 ++ l2) ->
  forall a b, In a l1 -> In b l2 -> R a b.
Proof.
  induction l1 as [|x l1 IH]; intros S a b Ia Ib; [contradiction|].
  simpl in S. inversion S as [|? ? S' F]; subst.
  destruct Ia as [<-|Ia].
  - rewrite Forall_forall in F. apply F, in_or_app. now right.
  - now apply IH.
Qed.

Lemma filter_all {A : Type} (p : A -> bool) (l : list A) :
  Forall (fun a => p a = true) l -> filter p l = l.
Proof.
  induction 1 as [|x l H _ IH]; simpl; [reflexivity|]. now rewrite H, IH.
Qed.

Lemma worst_valid analysis :
  Forall (fun m => has_valid_change m = true) (find_worst_moves analysis).
Proof.
  apply Forall_forall. intros m H. apply firstn_incl in H.
  destruct (ranked_records analysis) as [P _]. rewrite P in H.
  now apply filter_In in H.
Qed.




(** X14.  [find_worst_moves] returns the worst: the records that pass the
    filter split into the records returned and the records dropped, every
    returned record has a swing at most that of every dropped one, the
    number returned is the smaller of [TOP_N] and the number that pass, and
    nothing is dropped unless more than [TOP_N] pass. *)
Theorem find_worst_moves_takes_the_worst analysis :
  exists dropped,
    Permutation (filter has_valid_change analysis)
                (find_worst_moves analysis ++ dropped)
    /\ (forall w m, In w (find_worst_moves analysis) -> In m dropped -> swing_le w m)
    /\ List.length (find_worst_moves analysis)
       = Nat.min TOP_N (List.length (filter has_valid_change analysis))
    /\ (dropped = [] <->
        (List.length (filter has_valid_change analysis) <= TOP_N)%nat).
Proof.
  destruct (ranked_records analysis) as [P S]. cbv zeta in P, S.
  set (ranked := list_sort eval_change (filter has_valid_change analysis)) in *.
  exists (skipn TOP_N ranked).
  split; [|split; [|split]].
  - rewrite <- P. unfold find_worst_moves. fold ranked. now rewrite firstn_skipn.
  - apply sorted_app_le. unfold find_worst_moves. fold ranked.
    now rewrite firstn_skipn.
  - unfold find_worst_moves. fold ranked.
    now rewrite length_firstn, (Permutation_length P).
  - rewrite <- (Permutation_length P). split.
    + intro E. apply (f_equal (@List.length _)) in E.
      rewrite length_skipn in E. simpl in E. lia.
    + intro L. apply skipn_all2. exact L.
Qed.

(** A list in ascending order of keys is left as it is. *)
Lemma list_sort_sorted_id {A : Type} (key : A -> option Q) (l : list A) :
  Forall (fun a => key a <> None) l ->
  StronglySorted (key_le key) l ->
  list_sort key l = l.
Proof.
  intros K S. symmetry. now apply list_sort_is_the_stable_sort.
Qed.

(** X15.  [find_worst_moves] is idempotent: ranking its own output
    changes nothing. *)
Theorem find_worst_moves_idempotent analysis :
  find_worst_moves (find_worst_moves analysis) = find_worst_moves analysis.
Proof.
  change (firstn TOP_N
            (list_sort eval_change
               (filter has_valid_change (find_worst_moves analysis)))
          = find_worst_moves analysis).
  rewrite (filter_all _ _ (worst_valid analysis)).
  rewrite list_sort_sorted_id.
  - apply firstn_all2. apply firstn_le_length.
  - eapply Forall_impl; [|apply (worst_valid analysis)].
    intros m V. now apply has_valid_change_iff in V.
  - apply firstn_sorted. apply (ranked_records analysis).
Qed.

End Selector2.

(** ** The normaliser, continued *)

Section Normalizer2.

Context {Move : Type}.
Variables (pv : option (list Move)) (depth : option Z).

Local Abbreviation raw score := (@mkInfo Move pv depth score).

Lemma mate_value (n : Z) :
  _extract_evaluation (raw (Some (Mate n)))
  = Some (inject_Z (if (0 <? n)%Z then Z.min 99 (1000 - n) else (-99)%Z)).
Proof.
  destruct (0 <? n)%Z eqn:E.
  - apply Z.ltb_lt in E. now apply extract_mate_favourable.
  - apply Z.ltb_ge in E. rewrite extract_mate_unfavourable by exact E.
    do 2 f_equal. lia.
Qed.

(** X16.  The sign of a normalised mate score: positive exactly for a
    favourable mate in fewer than 1000 moves, zero for a mate in exactly
    1000, negative for every mate against the side to move and for a
    favourable mate in more than 1000. *)
Theorem mate_score_sign (n : Z) :
  exists v,
    _extract_evaluation (raw (Some (Mate n))) = Some v
    /\ (0 < v <-> (0 < n < 1000)%Z)
    /\ (v == 0 <-> n = 1000%Z)
    /\ (v < 0 <-> (n <= 0 \/ 1000 < n)%Z).
Proof.
  eexists. split; [apply mate_value|].
  change 0 with (inject_Z 0).
  rewrite <- !Zlt_Qlt, inject_Z_injective.
  destruct (0 <? n)%Z eqn:E; [apply Z.ltb_lt in E | apply Z.ltb_ge in E]; lia.
Qed.

(** Centipawn scores keep their order, and multiplying the normalised
    value by 100 gives the centipawns back. *)
Lemma centipawn_scores_keep_order (c c' : Z) :
  exists v v',
    _extract_evaluation (raw (Some (Cp c))) = Some v
    /\ _extract_evaluation (raw (Some (Cp c'))) = Some v'
    /\ (v <= v' <-> (c <= c')%Z)
    /\ (v == v' <-> c = c')
    /\ v * 100 == inject_Z c.
Proof.
  exists (inject_Z c / 100), (inject_Z c' / 100).
  split; [reflexivity|]. split; [reflexivity|].
  split; [|split].
  - unfold Qle, Qdiv, Qmult, Qinv, inject_Z; cbn -[Z.mul]. lia.
  - unfold Qeq, Qdiv, Qmult, Qinv, inject_Z; cbn -[Z.mul]. lia.
  - unfold Qeq, Qdiv, Qmult, Qinv, inject_Z; cbn -[Z.mul]. lia.
Qed.

End Normalizer2.

(** ** The report *)

Section ReportFacts.

Context {Move : Type} {Board : Type} (rules : @Rules Move Board).
Implicit Types (m : @MoveRecord Move) (worst_moves : list (@MoveRecord Move)).

(** An entry shows the record it is made from. *)
Local Abbreviation shows := (fun m (e : @ReportEntry Move) =>
  eval_change m = Some (entry_eval_change e)
  /\ entry_move_number e = move_number m
  /\ entry_player e = player m
  /\ entry_move e = san m
  /\ entry_time e = time_taken_before m + time_taken_after m).


Lemma report_entries_result worst_moves :
  forall i,
  (Forall (fun m => eval_change m <> None) worst_moves ->
     exists entries, report_entries rules i worst_moves = Ok entries)
  /\ (Exists (fun m => eval_change m = None) worst_moves ->
     report_entries rules i worst_moves = Raise format_none).
Proof.
  induction worst_moves as [|m rest IH]; intro i; cbn [report_entries].
  - split; [intros _; eexists; reflexivity | intro H; inversion H].
  - unfold report_entry. destruct (eval_change m) as [c|] eqn:C; cbn [bind].
    + destruct (IH (S i)) as [IH1 IH2]. split.
      * intro F. inversion F as [|? ? _ F']; subst.
        destruct (IH1 F') as [es ->]. cbn [bind]. eexists; reflexivity.
      * intro E. inversion E as [? ? H|? ? H]; subst; [congruence|].
        now rewrite (IH2 H).
    + split; [|reflexivity]. intro F. inversion F; congruence.
Qed.

Lemma missing_swing_dec worst_moves :
  Forall (fun m => eval_change m <> None) worst_moves
  \/ Exists (fun m => eval_change m = None) worst_moves.
Proof.
  induction worst_moves as [|m rest [IH|IH]].
  - left. constructor.
  - destruct (eval_change m) eqn:C.
    + left. constructor; [congruence | exact IH].
    + right. now left.
  - right. now right.
Qed.

(** X17.  [print_worst_moves_report] raises [TypeError] exactly when some
    record it is given has no swing, and completes exactly when every
    record has one. *)
Theorem report_raises_iff_missing_swing (game : Game) worst_moves :
  (print_worst_moves_report rules game worst_moves = Raise format_none
   <-> Exists (fun m => eval_change m = None) worst_moves)
  /\ ((exists report, print_worst_moves_report rules game worst_moves = Ok report)
      <-> Forall (fun m => eval_change m <> None) worst_moves).
Proof.
  unfold print_worst_moves_report.
  destruct (report_entries_result worst_moves 1) as [R1 R2].
  destruct (missing_swing_dec worst_moves) as [F|E].
  - destruct (R1 F) as [entries ->]. cbn [bind].
    assert (A : exists a,
               match worst_moves with
               | [] => Ok None
               | worst :: _ =>
                   match eval_change worst with
                   | Some c =>
                       Ok (Some {| worst_move_number := move_number worst;
                                   worst_player := player worst;
                                   worst_move_str := san worst;
                                   worst_eval_change := c |})
                   | None => Raise format_none
                   end
               end = Ok a).
    { destruct worst_moves as [|w rest]; [eexists; reflexivity|].
      inversion F as [|? ? W _]; subst.
      destruct (eval_change w); [eexists; reflexivity | congruence]. }
    destruct A as [a ->]. cbn [bind]. split.
    + split; [discriminate|]. intro E. exfalso.
      apply Exists_exists in E. destruct E as (m & I & N).
      rewrite Forall_forall in F. now apply (F m I).
    + split; [intros _; exact F | intros _; eexists; reflexivity].
  - rewrite (R2 E). cbn [bind]. split.
    + split; [intros _; exact E | reflexivity].
    + split; [intros [r [=]]|]. intro F. exfalso.
      apply Exists_exists in E. destruct E as (m & I & N).
      rewrite Forall_forall in F. now apply (F m I).
Qed.


(** The report of what [find_worst_moves] returns is always printed. *)
Lemma report_worst_returns (game : Game) (analysis : list (@MoveRecord Move)) :
  exists report,
    print_worst_moves_report rules game (find_worst_moves analysis) = Ok report.
Proof.
  assert (K : Forall (fun m => eval_change m <> None) (find_worst_moves analysis)).
  { eapply Forall_impl; [|apply (worst_valid analysis)].
    intros m H. now apply has_valid_change_iff in H. }
  unfold print_worst_moves_report.
  destruct (report_entries_result (find_worst_moves analysis) 1) as [R _].
  destruct (R K) as [entries ->]. cbn [bind].
  destruct (find_worst_moves analysis) as [|w rest]; [eexists; reflexivity|].
  inversion K as [|? ? Kw _]; subst.
  destruct (eval_change w); [eexists; reflexivity | congruence].
Qed.


End ReportFacts.

(** ** The entry point *)

Section MainFacts.

Context {Move : Type} (Move_eq_dec : forall a b : Move, {a = b} + {a <> b}).
Context {Board : Type} (rules : @Rules Move Board).

Local Abbreviation started eng :=
  (GameAnalyzer_enter (GameAnalyzer_init "/usr/bin/stockfish") eng).

(** What [main] does once it has a position and the move played there. *)
Local Abbreviation deep_run eng args board actual_move :=
  (match analyze_specific_move Move_eq_dec rules (started eng) board
           (args_duration args) actual_move with
   | Ok report => Returns (DeepAnalysis report)
   | Raise e => Uncaught e
   end).

(** X19.  Without [--analyze-move], or with [--analyze-move 0], [main]
    runs the full analysis and returns: it analyses the game, ranks the
    records and prints the report, and none of the three raises. *)
Theorem main_full_analysis (args : Args) (eng : Engine) (game : Game) :
  args_analyze_move args = None \/ args_analyze_move args = Some 0%Z ->
  exists analysis report,
    analyze_game Move_eq_dec rules (started eng) game = Ok analysis
    /\ print_worst_moves_report rules game (find_worst_moves analysis) = Ok report
    /\ main Move_eq_dec rules args eng game
       = Returns (FullReport analysis (find_worst_moves analysis) report).
Proof.
  intro A.
  destruct (analyze_game_returns Move_eq_dec rules (started eng) eng game eq_refl)
    as [analysis G].
  destruct (report_worst_returns rules game analysis) as [report R].
  exists analysis, report. split; [exact G|]. split; [exact R|].
  unfold main. destruct A as [-> | ->]; cbv iota beta; cbn [Z.eqb];
    now rewrite G, R.
Qed.

Lemma list_index_nth {A : Type} (l : list A) (i : nat) :
  list_index l (Z.of_nat i) = nth_error l i.
Proof.
  unfold list_index. destruct (0 <=? Z.of_nat i)%Z eqn:E.
  - now rewrite Nat2Z.id.
  - apply Z.leb_gt in E. lia.
Qed.

Lemma target_ply_of_record (ply : Z) :
  (0 <= ply)%Z ->
  target_ply_of (ply / 2 + 1)
    (color_option (if Z.even ply then "White" else "Black"))
  = ply.
Proof.
  intro P. unfold target_ply_of.
  destruct (Z.even ply) eqn:E.
  - change (String.eqb (color_option "White") "black") with false. cbv iota.
    apply Z.even_spec in E. destruct E as [k ->].
    replace (2 * k)%Z with (0 + k * 2)%Z at 1 by lia.
    rewrite Z.div_add by lia. change (0 / 2)%Z with 0%Z. lia.
  - change (String.eqb (color_option "Black") "black") with true. cbv iota.
    rewrite <- Z.negb_odd in E. apply negb_false_iff, Z.odd_spec in E.
    destruct E as [k ->].
    replace (2 * k + 1)%Z with (1 + k * 2)%Z at 1 by lia.
    rewrite Z.div_add by lia. change (1 / 2)%Z with 0%Z. lia.
Qed.

(** X20.  The move number and the player of a record lead back to its
    ply: when turns alternate and White moves first, [main] called with
    [--analyze-move] and [--color] set from a record of [analyze_game]
    computes that record's ply index and runs the deep analysis on the
    position the record's move was played from, with that move as the
    move played. *)
Theorem main_analyze_move_round_trip
    (self : GameAnalyzer) (args : Args) (eng : Engine) (game : Game)
    (records : list MoveRecord) (r : MoveRecord) :
  alternating rules ->
  Board_turn rules (game_board game) = White ->
  analyze_game Move_eq_dec rules self game = Ok records ->
  In r records ->
  args_analyze_move args = Some (move_number r) ->
  args_color args = color_option (player r) ->
  target_ply_of (move_number r) (color_option (player r)) = ply_index r
  /\ exists board,
       Board_fen rules board = pre_move_fen r
       /\ main Move_eq_dec rules args eng game
          = deep_run eng args board (Some (move r)).
Proof.
  intros Alt W G I A C.
  destruct (In_nth_error _ _ I) as [i N].
  destruct (analyze_game_follows Move_eq_dec rules self game records G) as (first & F & _).
  destruct (follows_nth rules _ _ _ _ _ _ _ F N) as (P & M & Fen & _).
  pose proof (analyze_game_numbering_at Move_eq_dec rules self game records r Alt W G I)
    as [Num Pl].
  simpl in P.
  assert (T : target_ply_of (move_number r) (color_option (player r)) = ply_index r).
  { rewrite Num, Pl. apply target_ply_of_record. lia. }
  split; [exact T|].
  exists (board_after rules (game_board game) (game_mainline game) i).
  split; [now rewrite Fen|].
  assert (L : (i < List.length (game_mainline game))%nat)
    by (apply nth_error_Some; congruence).
  unfold main. rewrite A, C.
  assert (Z0 : (move_number r =? 0)%Z = false).
  { apply Z.eqb_neq. rewrite Num.
    pose proof (Z.div_pos (ply_index r) 2). lia. }
  rewrite Z0, T, P. cbv zeta.
  replace (Z.of_nat i >? Z.of_nat (List.length (game_mainline game)))%Z with false
    by (symmetry; rewrite Z.gtb_ltb; apply Z.ltb_ge; lia).
  replace (Z.of_nat i <? Z.of_nat (List.length (game_mainline game)))%Z with true
    by (symmetry; apply Z.ltb_lt; lia).
  rewrite list_index_nth, M. unfold advance. now rewrite Nat2Z.id.
Qed.


End MainFacts.

(** ** The properties on the sample data *)

Lemma sample_alternating : alternating Sample.rules.
Proof.
  intros board move.
  change (Board_turn Sample.rules (Board_push Sample.rules board move))
    with (if Nat.even (List.length (board ++ [move])) then White else Black).
  change (Board_turn Sample.rules board)
    with (if Nat.even (List.length board) then White else Black).
  rewrite length_app. change (List.length [move]) with 1%nat.
  rewrite Nat.add_1_r, Nat.even_succ, <- Nat.negb_even.
  now destruct (Nat.even _).
Qed.

(** X1 on the steady search. *)
Lemma analyze_position_verdict_shape_witness :
  hd_error ["e2e4"%string] = Some "e2e4"%string
  /\ (List.length ["e2e4"%string] <= 7)%nat.
Proof.
  exact (analyze_position_verdict_shape string_dec
           (Sample.analyzer Sample.steady) 0 [] TIME_LIMIT
           {| best_move := Some "e2e4"%string;
              evaluation := Some (20 # 100);
              principal_variation := ["e2e4"%string];
              time_taken := 10 - 0 |}
           eq_refl).
Defined.

(** X3 on the steady search. *)
Lemma stability_loop_stops_when_quiet_witness :
  loop_broke (stability_loop string_dec 0 Sample.steady) = true
  /\ loop_taken (stability_loop string_dec 0 Sample.steady) = 2%nat
  /\ last_best_move (loop_state (stability_loop string_dec 0 Sample.steady))
     = Some "e2e4"%string.
Proof.
  apply (stability_loop_stops_when_quiet string_dec 0
           (Sample.update ["e2e4"%string] 10 (Cp 20) 0) []
           (Sample.update ["e2e4"%string; "e7e5"%string] 30 (Cp 35) 10) []
           "e2e4"%string).
  - reflexivity.
  - constructor.
  - reflexivity.
  - vm_compute. discriminate.
Defined.

(** X4 on the steady search. *)
Lemma converged_verdict_took_quiet_period_witness :
  STABILITY_THRESHOLD <= 10 - 0.
Proof.
  apply (converged_verdict_took_quiet_period string_dec
           (Sample.analyzer Sample.steady) (Sample.engine_of Sample.steady)
           0 [] TIME_LIMIT
           {| best_move := Some "e2e4"%string;
              evaluation := Some (20 # 100);
              principal_variation := ["e2e4"%string];
              time_taken := 10 - 0 |}).
  - reflexivity.
  - reflexivity.
  - simpl. repeat constructor; vm_compute; discriminate.
  - intros [|[|[|k]]] u H; simpl in H; try discriminate;
      injection H as <-; vm_compute; discriminate.
  - reflexivity.
  - reflexivity.
Defined.

(** X5 on a stream without variations. *)
Lemma analyze_position_without_variation_witness :
  analyze_position string_dec (Sample.analyzer Demo.silent) 0 [] TIME_LIMIT
  = Ok {| best_move := None; evaluation := None; principal_variation := [];
          time_taken := 10 - 0 |}.
Proof.
  apply (analyze_position_without_variation string_dec
           (Sample.analyzer Demo.silent) (Sample.engine_of Demo.silent)
           0 [] TIME_LIMIT).
  - reflexivity.
  - reflexivity.
  - simpl. repeat constructor.
Defined.


(** X9 on the sample game. *)
Lemma analyze_game_chains_verdicts_witness :
  eval_before (Demo.ply 1) = eval_after (Demo.ply 0)
  /\ time_taken_before (Demo.ply 1) = time_taken_after (Demo.ply 0)
  /\ evaluation (position_analysis (Demo.ply 1)) = eval_after (Demo.ply 0)
  /\ pre_move_fen (Demo.ply 1) = board_fen (Demo.ply 0)
  /\ ply_index (Demo.ply 1) = (ply_index (Demo.ply 0) + 1)%Z.
Proof.
  exact (analyze_game_chains_verdicts string_dec Sample.rules Demo.analyzer
           Sample.game [] (Demo.ply 0) (Demo.ply 1) [Demo.ply 2] eq_refl).
Defined.

(** X10 on the sample game. *)
Lemma analyze_game_stops_at_game_over_witness :
  map move Demo.records = firstn (List.length Demo.records) (game_mainline Sample.game)
  /\ (List.length Demo.records = List.length (game_mainline Sample.game)
      \/ Board_is_game_over Sample.rules
           (board_after Sample.rules (game_board Sample.game)
              (game_mainline Sample.game) (List.length Demo.records)) = true)
  /\ (forall k, (0 < k < List.length Demo.records)%nat ->
        Board_is_game_over Sample.rules
          (board_after Sample.rules (game_board Sample.game)
             (game_mainline Sample.game) k) = false).
Proof.
  exact (analyze_game_stops_at_game_over string_dec Sample.rules Demo.analyzer
           Sample.game Demo.records eq_refl).
Defined.

(** X11 on the sample game: a steady and a wavering engine. *)
Lemma analyze_game_short_game_never_streams_witness :
  analyze_game string_dec Sample.rules (Sample.analyzer Sample.steady) Sample.game
  = analyze_game string_dec Sample.rules (Sample.analyzer Sample.wavering) Sample.game.
Proof.
  apply (analyze_game_short_game_never_streams string_dec Sample.rules
           (Sample.analyzer Sample.steady) (Sample.analyzer Sample.wavering)
           (Sample.engine_of Sample.steady) (Sample.engine_of Sample.wavering)
           Sample.game).
  - reflexivity.
  - reflexivity.
  - reflexivity.
  - reflexivity.
  - reflexivity.
Defined.

(** X12 on the sample game. *)
Lemma analyze_game_swings_witness :
  map ply_index Demo.records = map Z.of_nat (seq 0 (List.length Demo.records))
  /\ Forall (fun r =>
       (eval_change r = None <-> eval_before r = None \/ eval_after r = None)
       /\ (forall before after,
             eval_before r = Some before -> eval_after r = Some after ->
             eval_change r = Some (- after - before)))
     Demo.records.
Proof.
  exact (analyze_game_swings string_dec Sample.rules Demo.analyzer Sample.game
           Demo.records eq_refl).
Defined.

(** X13 on the sample game. *)
Lemma analyze_game_numbering_witness :
  Forall (fun r =>
       move_number r = (ply_index r / 2 + 1)%Z
       /\ player r = (if Z.even (ply_index r) then "White" else "Black")%string)
     Demo.records.
Proof.
  exact (analyze_game_numbering string_dec Sample.rules Demo.analyzer Sample.game
           Demo.records sample_alternating eq_refl eq_refl).
Defined.

(** X19 on the sample game. *)
Lemma main_full_analysis_witness :
  exists analysis report,
    analyze_game string_dec Sample.rules
      (GameAnalyzer_enter (GameAnalyzer_init "/usr/bin/stockfish") Demo.scoring_engine)
      Sample.game = Ok analysis
    /\ print_worst_moves_report Sample.rules Sample.game (find_worst_moves analysis)
       = Ok report
    /\ main string_dec Sample.rules Demo.args_full Demo.scoring_engine Sample.game
       = Returns (FullReport analysis (find_worst_moves analysis) report).
Proof.
  exact (main_full_analysis string_dec Sample.rules Demo.args_full
           Demo.scoring_engine Sample.game (or_introl eq_refl)).
Defined.

(** X20 on Black's first move of the sample game. *)
Lemma main_analyze_move_round_trip_witness :
  target_ply_of 1 "black" = 1%Z
  /\ exists board,
       Board_fen Sample.rules board = "e2e4"%string
       /\ main string_dec Sample.rules Demo.args_black_1 Demo.scoring_engine Sample.game
          = match analyze_specific_move string_dec Sample.rules
                    (GameAnalyzer_enter (GameAnalyzer_init "/usr/bin/stockfish")
                       Demo.scoring_engine)
                    board 240 (Some "e7e5"%string) with
            | Ok report => Returns (DeepAnalysis report)
            | Raise e => Uncaught e
            end.
Proof.
  apply (main_analyze_move_round_trip string_dec Sample.rules Demo.analyzer
           Demo.args_black_1 Demo.scoring_engine Sample.game Demo.records
           (Demo.ply 1) sample_alternating eq_refl eq_refl).
  - vm_compute. right. left. reflexivity.
  - reflexivity.
  - reflexivity.
Defined.

